(** * arbol_genealogico: the family model and the generation layout

    A shallow embedding of [src/main.py]: the class [FamilyModel]
    (the list of person dictionaries with its create / update / delete
    methods) and the method [MainWindow.auto_layout] (breadth-first
    levelling and position assignment).

    Modelling conventions.
    - A person dictionary is the record [Person].  The keys ["padres"] and
      ["hijos"] may be missing from a dictionary read from the JSON file;
      the code reads them with [p.get(key, [])] and writes them with
      [p.setdefault(key, [])], so both fields are optional here.
    - Every dictionary carries its ["id"]: the scene and the layout read it
      with [p["id"]], which raises on a dictionary without one.
    - [self.people] is a Python list of dictionaries; a reference to one of
      them (what [self.get] returns) is modelled by its position in the list,
      and a mutation through the reference by [alter] at that position.
    - In [FamilyModel] below list arguments are taken by value.  That
      describes a call on lists built for it, which is what every call
      site of the repository hands over.  The methods keep the list object
      they are given, though, and change it in place later: the part
      "List objects" further down models the objects themselves, for
      sequences of calls that may hand the same object over twice, and is
      shown to agree with [FamilyModel] when no object is shared.
    - Python integers are unbounded: ids are [Z].
    - [save] opens the data file for writing, which can raise; the methods
      therefore return an [outcome], and the model carries the state of the
      file next to the list in memory.  A failure of [open] is the only
      failure of [save] that is modelled (see [save]). *)

From Stdlib Require Import ZArith QArith Lia.
From stdpp Require Import base decidable option list gmap sets strings.

Local Open Scope Z_scope.
Set Warnings "-clear-no-such-hyp".

(** ** Data model *)

Record Person := mkPerson {
  ident : Z;                       (* "id" *)
  nombre : string;
  fecha_nacimiento : string;
  padres : option (list Z);
  hijos : option (list Z);
  descripcion : string;
  pos_x : option Q;                (* "x" *)
  pos_y : option Q                 (* "y" *)
}.

(** [p.get("padres", [])] and [p.get("hijos", [])]. *)
Definition padres_of (p : Person) : list Z := default [] (padres p).
Definition hijos_of (p : Person) : list Z := default [] (hijos p).

Definition set_nombre (v : string) (p : Person) : Person :=
  mkPerson (ident p) v (fecha_nacimiento p) (padres p) (hijos p)
           (descripcion p) (pos_x p) (pos_y p).
Definition set_fecha_nacimiento (v : string) (p : Person) : Person :=
  mkPerson (ident p) (nombre p) v (padres p) (hijos p)
           (descripcion p) (pos_x p) (pos_y p).
Definition set_descripcion (v : string) (p : Person) : Person :=
  mkPerson (ident p) (nombre p) (fecha_nacimiento p) (padres p) (hijos p)
           v (pos_x p) (pos_y p).
Definition set_padres (v : list Z) (p : Person) : Person :=
  mkPerson (ident p) (nombre p) (fecha_nacimiento p) (Some v) (hijos p)
           (descripcion p) (pos_x p) (pos_y p).
Definition set_hijos (v : list Z) (p : Person) : Person :=
  mkPerson (ident p) (nombre p) (fecha_nacimiento p) (padres p) (Some v)
           (descripcion p) (pos_x p) (pos_y p).

(** [l.remove(a)]: the first occurrence of [a] goes.  (Python raises when
    there is none; every call in the source is guarded by [a in l].) *)
Fixpoint remove_first (a : Z) (l : list Z) : list Z :=
  match l with
  | [] => []
  | b :: l' => if decide (a = b) then l' else b :: remove_first a l'
  end.

(** [p.setdefault("hijos", []).append(a)] and its twin for ["padres"]. *)
Definition append_hijo (a : Z) (p : Person) : Person :=
  set_hijos (hijos_of p ++ [a]) p.
Definition append_padre (a : Z) (p : Person) : Person :=
  set_padres (padres_of p ++ [a]) p.

(** [p["hijos"].remove(a)] and its twin for ["padres"]. *)
Definition remove_hijo (a : Z) (p : Person) : Person :=
  set_hijos (remove_first a (hijos_of p)) p.
Definition remove_padre (a : Z) (p : Person) : Person :=
  set_padres (remove_first a (padres_of p)) p.

(** The file behind [self.filename]: what was last written to it, and
    whether [open(self.filename, "w")] succeeds on it. *)
Record FamilyModel := mkModel {
  people : list Person;
  file : option (list Person);
  writable : bool
}.

(** The [OSError] that [open] raises in [save]. *)
Inductive exn := StorageWriteError.

Inductive outcome (A : Type) :=
| Returned (a : A)
| Raised (e : exn).
Arguments Returned {A} a.
Arguments Raised {A} e.

(** A method of [FamilyModel]: it runs on the object and leaves it in a new
    state, whether it returns or raises. *)
Definition Method (A : Type) : Type := FamilyModel → outcome A * FamilyModel.

#[export] Instance method_ret : MRet Method := λ A a m, (Returned a, m).
#[export] Instance method_bind : MBind Method := λ A B k c m,
  match c m with
  | (Returned a, m') => k a m'
  | (Raised e, m') => (Raised e, m')
  end.

Definition read_people : Method (list Person) := λ m, (Returned (people m), m).
Definition write_people (ppl : list Person) : Method unit :=
  λ m, (Returned tt, mkModel ppl (file m) (writable m)).

(** ** FamilyModel *)

(** [save].  When [open(self.filename, "w")] raises ([writable m = false]:
    a missing directory, a file that may not be written) nothing has been
    written yet: the method raises and the file is as it was.  Otherwise the
    file is truncated and [json.dump] writes the list.  Every value of the
    model can be serialised, so [json.dump] does not raise by itself; a
    device that fails in the middle of the write, leaving the file cut, is
    not modelled. *)
Definition save : Method unit :=
  λ m, if writable m
       then (Returned tt, mkModel (people m) (Some (people m)) true)
       else (Raised StorageWriteError, m).

(** [max((p.get("id", 0) for p in self.people), default=0)]. *)
Definition max_id (ppl : list Person) : Z :=
  match ppl with
  | [] => 0
  | p :: ppl' => foldl (λ acc q, Z.max acc (ident q)) (ident p) ppl'
  end.

Definition generate_id : Method Z :=
  ppl ← read_people; mret (max_id ppl + 1).

(** [self.get(id_)]: the first dictionary whose id is [id_], as a reference
    (its position) together with its present contents. *)
Definition get (id_ : Z) (ppl : list Person) : option (nat * Person) :=
  list_find (λ p, ident p = id_) ppl.

(** One round of the loop [for pid in person["padres"]] of [add_person]
    (and of [for parent_id in new_parents] of [update_person]): the target,
    when it exists and lacks [new_id], gets it appended. *)
Definition link_hijo (new_id : Z) (ppl : list Person) (pid : Z) : list Person :=
  match get pid ppl with
  | Some (i, p) =>
      if decide (new_id ∈ hijos_of p) then ppl
      else alter (append_hijo new_id) i ppl
  | None => ppl
  end.

Definition link_padre (new_id : Z) (ppl : list Person) (cid : Z) : list Person :=
  match get cid ppl with
  | Some (i, c) =>
      if decide (new_id ∈ padres_of c) then ppl
      else alter (append_padre new_id) i ppl
  | None => ppl
  end.

(** The body of [add_person] between [self.people.append(person)] and
    [self.save()]: the append and the two loops that maintain the links in
    both directions.  The second loop runs over [person["hijos"]] as the
    first one left it. *)
Definition append_linked (person : Person) (ppl : list Person) : list Person :=
  let new_id := ident person in
  let at_person := length ppl in
  let ppl1 := ppl ++ [person] in
  let ppl2 := foldl (link_hijo new_id) ppl1 (padres_of person) in
  let own_hijos := from_option hijos_of [] (ppl2 !! at_person) in
  foldl (link_padre new_id) ppl2 own_hijos.

(** The dictionary literal of [add_person], its two lists by value
    ([Mem.add_person] keeps the list objects). *)
Definition new_person (new_id : Z) (name dob description : string)
    (parents children : option (list Z)) : Person :=
  mkPerson new_id name dob (Some (default [] parents))
           (Some (default [] children)) description None None.

Definition add_person (name dob description : string)
    (parents children : option (list Z)) : Method Z :=
  new_id ← generate_id;
  ppl ← read_people;
  let person := new_person new_id name dob description parents children in
  write_people (append_linked person ppl) ;;
  save ;;
  mret new_id.

(** A keyword argument of [update_person]: left out, passed as [None], or
    passed with a value. *)
Inductive kwarg (A : Type) :=
| Omitted
| PyNone
| Given (a : A).
Arguments Omitted {A}.
Arguments PyNone {A}.
Arguments Given {A} a.

(** [k in kwargs and kwargs[k] is not None]. *)
Definition supplied {A} (k : kwarg A) : option A :=
  match k with Given a => Some a | _ => None end.

Record kwargs := mkKwargs {
  kw_nombre : kwarg string;
  kw_fecha_nacimiento : kwarg string;
  kw_descripcion : kwarg string;
  kw_padres : kwarg (list Z);
  kw_hijos : kwarg (list Z)
}.

(** One round of [for old_parent_id in list(p.get("padres", []))]. *)
Definition unlink_hijo (own : Z) (new_parents : list Z)
    (ppl : list Person) (old_parent_id : Z) : list Person :=
  if decide (old_parent_id ∈ new_parents) then ppl
  else match get old_parent_id ppl with
       | Some (j, parent) =>
           if decide (own ∈ hijos_of parent)
           then alter (remove_hijo own) j ppl else ppl
       | None => ppl
       end.

Definition unlink_padre (own : Z) (new_children : list Z)
    (ppl : list Person) (old_child_id : Z) : list Person :=
  if decide (old_child_id ∈ new_children) then ppl
  else match get old_child_id ppl with
       | Some (j, child) =>
           if decide (own ∈ padres_of child)
           then alter (remove_padre own) j ppl else ppl
       | None => ppl
       end.

(** The three scalar assignments [p[k] = kwargs[k]]. *)
Definition update_scalars (kw : kwargs) (p : Person) : Person :=
  let p1 := from_option (λ v, set_nombre v p) p (supplied (kw_nombre kw)) in
  let p2 := from_option (λ v, set_fecha_nacimiento v p1) p1
                        (supplied (kw_fecha_nacimiento kw)) in
  from_option (λ v, set_descripcion v p2) p2 (supplied (kw_descripcion kw)).

(** The block under [if "padres" in kwargs and ...]; [i] is the reference
    [p], whose dictionary is read again wherever the source reads [p].
    The new list is taken by value, here and in [replace_hijos]
    ([Mem.replace_rel] assigns the list object). *)
Definition replace_padres (i : nat) (new_parents : list Z)
    (ppl : list Person) : list Person :=
  match ppl !! i with
  | None => ppl
  | Some p =>
      let ppl1 := foldl (unlink_hijo (ident p) new_parents) ppl (padres_of p) in
      let ppl2 := alter (set_padres new_parents) i ppl1 in
      foldl (link_hijo (ident p)) ppl2 new_parents
  end.

Definition replace_hijos (i : nat) (new_children : list Z)
    (ppl : list Person) : list Person :=
  match ppl !! i with
  | None => ppl
  | Some p =>
      let ppl1 := foldl (unlink_padre (ident p) new_children) ppl (hijos_of p) in
      let ppl2 := alter (set_hijos new_children) i ppl1 in
      foldl (link_padre (ident p)) ppl2 new_children
  end.

(** The body of [update_person] once [p] is found, up to [self.save()];
    [i] is the reference [p]. *)
Definition updated (i : nat) (kw : kwargs) (ppl : list Person) : list Person :=
  let ppl1 := alter (update_scalars kw) i ppl in
  let ppl2 := from_option (λ new, replace_padres i new ppl1) ppl1
                          (supplied (kw_padres kw)) in
  from_option (λ new, replace_hijos i new ppl2) ppl2 (supplied (kw_hijos kw)).

Definition update_person (id_ : Z) (kw : kwargs) : Method bool :=
  ppl ← read_people;
  match get id_ ppl with
  | None => mret false
  | Some (i, _) =>
      write_people (updated i kw ppl) ;;
      save ;;
      mret true
  end.

(** The body of [for other in self.people] of [delete_person]. *)
Definition drop_references (id_ : Z) (other : Person) : Person :=
  let o1 := if decide (id_ ∈ padres_of other) then remove_padre id_ other
            else other in
  if decide (id_ ∈ hijos_of o1) then remove_hijo id_ o1 else o1.

(** The loop of [delete_person] followed by the list comprehension that
    drops the record. *)
Definition deleted (id_ : Z) (ppl : list Person) : list Person :=
  filter (λ x, ident x ≠ id_) (drop_references id_ <$> ppl).

Definition delete_person (id_ : Z) : Method bool :=
  ppl ← read_people;
  match get id_ ppl with
  | None => mret false
  | Some _ =>
      write_people (deleted id_ ppl) ;;
      save ;;
      mret true
  end.

(** ** MainWindow.auto_layout *)

(** [{p["id"]: list(p.get("hijos", [])) for p in people}]: a later
    dictionary with the same id overwrites an earlier one. *)
Definition id_to_children (ppl : list Person) : gmap Z (list Z) :=
  foldl (λ d p, <[ident p := hijos_of p]> d) ∅ ppl.

(** [roots]: the ids whose ["padres"] is missing or empty, or every id
    when there is none. *)
Definition roots (ppl : list Person) : list Z :=
  let rs := ident <$> filter (λ p, padres_of p = []) ppl in
  match rs with
  | [] => ident <$> ppl
  | _ => rs
  end.

(** The loop [for c in id_to_children.get(nid, [])]. *)
Definition scan_children (visited : gset Z) (next_level cs : list Z) : list Z :=
  foldl (λ nxt c, if decide (c ∈ visited) then nxt
                  else if decide (c ∈ nxt) then nxt
                  else nxt ++ [c])
        next_level cs.

(** The loop [for nid in current], from [visited] and an empty
    [next_level]. *)
Definition visit_level (children : gmap Z (list Z)) (visited : gset Z)
    (current : list Z) : gset Z * list Z :=
  foldl (λ '(vis, nxt) nid,
           let vis' := {[nid]} ∪ vis in
           (vis', scan_children vis' nxt (default [] (children !! nid))))
        (visited, []) current.

(** The loop [while current], with the dictionary [levels] as the list of
    its items in insertion order.  [fuel] bounds the number of rounds;
    [None] means it ran out. *)
Fixpoint bfs (fuel : nat) (children : gmap Z (list Z))
    (levels : list (nat * list Z)) (visited : gset Z)
    (current : list Z) (level : nat) : option (list (nat * list Z)) :=
  match current with
  | [] => Some levels
  | _ :: _ =>
      match fuel with
      | O => None
      | S fuel' =>
          let '(visited', next_level) := visit_level children visited current in
          bfs fuel' children (levels ++ [(level, current)]) visited'
              next_level (S level)
      end
  end.

(** Every id the traversal can meet: the roots and all listed children. *)
Definition universe (ppl : list Person) : gset Z :=
  list_to_set (roots ppl ++ mjoin (hijos_of <$> ppl)).

(** Rounds that always suffice (see [bfs_terminates]). *)
Definition enough_fuel (ppl : list Person) : nat :=
  2 * size (universe ppl) + 2.

Definition layout_levels (ppl : list Person) : option (list (nat * list Z)) :=
  bfs (enough_fuel ppl) (id_to_children ppl) [] ∅ (roots ppl) 0.

Definition x_gap : Z := 200.
Definition y_gap : Z := 200.

(** [x = (i - (n - 1) / 2) * x_gap] with Python's true division, and
    [y = lvl * y_gap].  The halves are exact in binary floating point, so
    the rationals give the same numbers. *)
Definition slot_x (n i : nat) : Q :=
  ((inject_Z (Z.of_nat i) - inject_Z (Z.of_nat n - 1) / 2) * inject_Z x_gap)%Q.
Definition slot_y (lvl : nat) : Z := Z.of_nat lvl * y_gap.

(** The coordinates computed by the two nested loops over
    [levels.items()] and [enumerate(ids)], in the order they are computed. *)
Definition level_slots (lvl : nat) (ids : list Z) : list (Z * (Q * Z)) :=
  imap (λ i nid, (nid, (slot_x (length ids) i, slot_y lvl))) ids.

Definition slots (levels : list (nat * list Z)) : list (Z * (Q * Z)) :=
  mjoin ((λ '(lvl, ids), level_slots lvl ids) <$> levels).

(** [node = self.node_map.get(nid)] and [if node: node.setPos(x, y)]:
    [node_map] holds the position of every node of the scene. *)
Definition set_pos (node_map : gmap Z (Q * Q)) (s : Z * (Q * Z)) : gmap Z (Q * Q) :=
  match node_map !! s.1 with
  | Some _ => <[s.1 := (s.2.1, inject_Z s.2.2)]> node_map
  | None => node_map
  end.

Definition auto_layout (ppl : list Person) (node_map : gmap Z (Q * Q))
  : option (gmap Z (Q * Q)) :=
  levels ← layout_levels ppl;
  Some (foldl set_pos node_map (slots levels)).

(** ** Well-formedness of a store *)

Definition unique_ids (ppl : list Person) : Prop := NoDup (ident <$> ppl).

(** Relationship lists without repetitions. *)
Definition dup_free (ppl : list Person) : Prop :=
  ∀ p, p ∈ ppl → NoDup (padres_of p) ∧ NoDup (hijos_of p).

(** I1: [b] is listed as a child of [a] exactly when [a] is listed as a
    parent of [b]. *)
Definition reciprocal (ppl : list Person) : Prop :=
  ∀ a b, a ∈ ppl → b ∈ ppl →
    (ident b ∈ hijos_of a ↔ ident a ∈ padres_of b).

(** I2: every listed id is the id of a record of the store. *)
Definition no_dangling (ppl : list Person) : Prop :=
  ∀ p k, p ∈ ppl → k ∈ padres_of p ∨ k ∈ hijos_of p → is_Some (get k ppl).

(** A part of a record that does not depend on its relationship lists. *)
Definition rel_blind {B} (g : Person → B) : Prop :=
  ∀ v p, g (set_padres v p) = g p ∧ g (set_hijos v p) = g p.

(** ** The end of a mutating method *)

(** The tail shared by the three mutating methods: [self.people] holds the
    new list, [save] runs, the value is returned. *)
Definition commit {A} (ppl : list Person) (a : A) (m : FamilyModel)
  : outcome A * FamilyModel :=
  if writable m then (Returned a, mkModel ppl (Some ppl) true)
  else (Raised StorageWriteError, mkModel ppl (file m) false).



(** A record with the relationship lists only, for examples. *)
Definition bare (id_ : Z) (pa hi : list Z) : Person :=
  mkPerson id_ "" "" (Some pa) (Some hi) "" None None.

Definition no_kwargs : kwargs := mkKwargs Omitted Omitted Omitted Omitted Omitted.

(** ** Measures for the layout *)

(** The measure that decreases at every round of [while current]: twice
    the number of ids not yet visited, plus one when the round at hand
    visits nothing new. *)
Definition potential (U visited : gset Z) (current : list Z) : nat :=
  2 * size (U ∖ visited) +
  (if decide (Exists (λ k, k ∉ visited) current) then 0 else 1).

Definition Qsum (l : list Q) : Q := foldr Qplus 0%Q l.

Definition mean (l : list Q) : Q := (Qsum l / inject_Z (Z.of_nat (length l)))%Q.

(** The x-coordinates and the y-coordinates computed for one level. *)
Definition level_xs (lvl : nat) (ids : list Z) : list Q :=
  (λ s, s.2.1) <$> level_slots lvl ids.
Definition level_ys (lvl : nat) (ids : list Z) : list Z :=
  (λ s, s.2.2) <$> level_slots lvl ids.

(** Two roots, a child of the first, and a child of the second root with
    that child: record 4 has a parent in generation 0 and one in
    generation 1. *)
Definition two_generations : list Person :=
  [bare 1 [] [3]; bare 2 [] [4]; bare 3 [1] [4]; bare 4 [2; 3] []].

(** A scene with a node at the origin for each of the four records. *)
Definition four_nodes : gmap Z (Q * Q) :=
  list_to_map [(1, (0, 0)%Q); (2, (0, 0)%Q); (3, (0, 0)%Q); (4, (0, 0)%Q)].

(** ** The two directions of a link *)

(** The loops of [add_person] and [update_person] come in pairs that
    differ only in the key they read and write. *)
Inductive side := Padres | Hijos.

Definition flip (s : side) : side :=
  match s with Padres => Hijos | Hijos => Padres end.

Definition rel (s : side) (p : Person) : list Z :=
  match s with Padres => padres_of p | Hijos => hijos_of p end.

Definition set_rel (s : side) (v : list Z) (p : Person) : Person :=
  match s with Padres => set_padres v p | Hijos => set_hijos v p end.

(** [link Hijos] is [link_hijo] and [link Padres] is [link_padre]. *)
Definition link (s : side) (own : Z) (ppl : list Person) (k : Z) : list Person :=
  match get k ppl with
  | Some (i, p) =>
      if decide (own ∈ rel s p) then ppl
      else alter (λ q, set_rel s (rel s q ++ [own]) q) i ppl
  | None => ppl
  end.

(** [unlink Hijos] is [unlink_hijo] and [unlink Padres] is [unlink_padre]. *)
Definition unlink (s : side) (own : Z) (new : list Z)
    (ppl : list Person) (k : Z) : list Person :=
  if decide (k ∈ new) then ppl
  else match get k ppl with
       | Some (j, q0) =>
           if decide (own ∈ rel s q0)
           then alter (λ q, set_rel s (remove_first own (rel s q)) q) j ppl
           else ppl
       | None => ppl
       end.

(** [replace_rel Padres] is [replace_padres], [replace_rel Hijos] is
    [replace_hijos]. *)
Definition replace_rel (s : side) (i : nat) (new : list Z)
    (ppl : list Person) : list Person :=
  match ppl !! i with
  | None => ppl
  | Some p =>
      let ppl1 := foldl (unlink (flip s) (ident p) new) ppl (rel s p) in
      let ppl2 := alter (set_rel s new) i ppl1 in
      foldl (link (flip s) (ident p)) ppl2 new
  end.

(** What the loops do to each record, when ids are unique. *)
Definition link_map (s : side) (own : Z) (targets : list Z) (q : Person) : Person :=
  if decide (ident q ∈ targets ∧ (own ∉ rel s q))
  then set_rel s (rel s q ++ [own]) q else q.

Definition unlink_map (s : side) (own : Z) (olds new : list Z) (q : Person) : Person :=
  if decide (ident q ∈ olds ∧ (ident q ∉ new) ∧ own ∈ rel s q)
  then set_rel s (remove_first own (rel s q)) q else q.

Definition at_id (id_ : Z) (f : Person → Person) (q : Person) : Person :=
  if decide (ident q = id_) then f q else q.

Definition replace_map (s : side) (own : Z) (olds new : list Z) (q : Person) : Person :=
  link_map (flip s) own new
    (at_id own (set_rel s new) (unlink_map (flip s) own olds new q)).

(** The invariants, one direction at a time. *)
Definition recip (s : side) (ppl : list Person) : Prop :=
  ∀ a b, a ∈ ppl → b ∈ ppl →
    (ident b ∈ rel s a ↔ ident a ∈ rel (flip s) b).

(** A change of a record that keeps its id and its two lists. *)
Definition same_links (f : Person → Person) : Prop :=
  ∀ q, ident (f q) = ident q ∧ ∀ s, rel s (f q) = rel s q.

Definition dup_free_side (s : side) (ppl : list Person) : Prop :=
  ∀ p, p ∈ ppl → NoDup (rel s p).

(** The ids of [l] are ids of records of the store. *)
Definition known (ppl : list Person) (l : list Z) : Prop :=
  ∀ k, k ∈ l → k ∈ ident <$> ppl.

(** One of the two blocks of [update_person], run when its keyword
    argument is supplied. *)
Definition opt_replace (s : side) (i : nat) (o : option (list Z))
    (ppl : list Person) : list Person :=
  from_option (λ new, replace_rel s i new ppl) ppl o.

(** No record lists the id [n]. *)
Definition unreferenced (n : Z) (ppl : list Person) : Prop :=
  ∀ s q, q ∈ ppl → n ∉ rel s q.

(** ** Calls and sequences of calls *)

Inductive op :=
| Add (name dob description : string) (parents children : option (list Z))
| Update (id_ : Z) (kw : kwargs)
| Delete (id_ : Z).

(** The model a call leaves behind, whatever it returned or raised. *)
Definition exec (o : op) (m : FamilyModel) : FamilyModel :=
  match o with
  | Add name dob description parents children =>
      (add_person name dob description parents children m).2
  | Update id_ kw => (update_person id_ kw m).2
  | Delete id_ => (delete_person id_ m).2
  end.

Definition run (ops : list op) (m : FamilyModel) : FamilyModel :=
  foldl (λ m o, exec o m) m ops.

(** The relationship ids handed to a call are ids of records of the store;
    for [add_person], the id about to be allocated counts as one. *)
Definition known_args (o : op) (ppl : list Person) : Prop :=
  match o with
  | Add _ _ _ parents children =>
      ∀ k, k ∈ default [] parents ∨ k ∈ default [] children →
           k = max_id ppl + 1 ∨ k ∈ ident <$> ppl
  | Update _ kw =>
      (∀ new, supplied (kw_padres kw) = Some new → known ppl new) ∧
      (∀ new, supplied (kw_hijos kw) = Some new → known ppl new)
  | Delete _ => True
  end.

(** The relationship lists handed to a call have no repetitions. *)
Definition dup_free_args (o : op) : Prop :=
  match o with
  | Add _ _ _ parents children =>
      NoDup (default [] parents) ∧ NoDup (default [] children)
  | Update _ kw =>
      (∀ new, supplied (kw_padres kw) = Some new → NoDup new) ∧
      (∀ new, supplied (kw_hijos kw) = Some new → NoDup new)
  | Delete _ => True
  end.

Fixpoint valid_calls (ops : list op) (m : FamilyModel) : Prop :=
  match ops with
  | [] => True
  | o :: ops' =>
      known_args o (people m) ∧ dup_free_args o ∧ valid_calls ops' (exec o m)
  end.

Definition wf (ppl : list Person) : Prop :=
  unique_ids ppl ∧ dup_free ppl ∧ no_dangling ppl ∧ reciprocal ppl.

Definition empty_model : FamilyModel := mkModel [] None true.

(** Sample calls. *)
Definition only_padres (l : list Z) : kwargs :=
  mkKwargs Omitted Omitted Omitted (Given l) Omitted.

Definition sample_calls : list op :=
  [Add "Ana" "" "" None None;
   Add "Bea" "" "" (Some [1]) None;
   Add "Cleo" "" "" (Some [1; 2]) None;
   Update 3 (mkKwargs (Given "Clea") PyNone Omitted (Given [2]) (Given [1]));
   Update 9 (only_padres [1]);
   Delete 2].

Definition three_generations : list Person :=
  [bare 1 [] [2]; bare 2 [1] [3]; bare 3 [2] []].

(** ** FamilyModel.load *)

(** [load]: the list in memory becomes what the file holds, or the empty
    list when there is no file.  The contents of the file are what [save]
    wrote: the JSON text is not modelled, and neither is a file that
    [json.load] cannot read. *)
Definition load : Method unit :=
  λ m, (Returned tt, mkModel (default [] (file m)) (file m) (writable m)).

(** The parts of a record that are neither its id nor its two lists. *)
Definition scalars (p : Person) : string * string * string * option Q * option Q :=
  (nombre p, fecha_nacimiento p, descripcion p, pos_x p, pos_y p).

(** The call returned normally and reported success: an id for
    [add_person], [True] for the other two. *)
Definition succeeded (o : op) (m : FamilyModel) : Prop :=
  match o with
  | Add name dob description parents children =>
      ∃ g, (add_person name dob description parents children m).1 = Returned g
  | Update id_ kw => (update_person id_ kw m).1 = Returned true
  | Delete id_ => (delete_person id_ m).1 = Returned true
  end.

(** ** MainWindow: the scene *)

(** The window: the model, the dictionary [node_map] from ids to nodes (a
    node is known here by its position in the scene) and the list
    [edge_items], an edge being the pair of the ids of its two nodes. *)
Record MainWindow := mkWindow {
  model : FamilyModel;
  node_map : gmap Z (Q * Q);
  edge_items : list (Z * Z)
}.

(** [p.get("x") or 0]: a missing, [None] or zero coordinate gives 0. *)
Definition or_zero (v : option Q) : Q :=
  match v with
  | Some x => if Qeq_bool x 0 then 0%Q else x
  | None => 0%Q
  end.

(** The first loop of [reload_scene]: a node per record, placed at the
    saved position; a later record with the same id takes the entry of an
    earlier one in [node_map]. *)
Definition create_nodes (ppl : list Person) : gmap Z (Q * Q) :=
  foldl (λ d p, <[ident p := (or_zero (pos_x p), or_zero (pos_y p))]> d) ∅ ppl.

(** The second loop of [reload_scene]: an edge from each record to each
    listed child that has a node. *)
Definition create_edges (nodes : gmap Z (Q * Q)) (ppl : list Person)
  : list (Z * Z) :=
  p ← ppl;
  match nodes !! ident p with
  | None => []
  | Some _ =>
      (λ child_id, (ident p, child_id)) <$>
        filter (λ child_id, is_Some (nodes !! child_id)) (hijos_of p)
  end.

Definition reload_scene (w : MainWindow) : MainWindow :=
  let m := (load (model w)).2 in
  let nodes := create_nodes (people m) in
  mkWindow m nodes (create_edges nodes (people m)).

(** ** Reachability in the layout *)




(** [c] is listed as a child under some id of level [lvl]. *)
Definition child_of_level (children : gmap Z (list Z))
    (levels : list (nat * list Z)) (lvl : nat) (c : Z) : Prop :=
  ∃ prev nid, (lvl, prev) ∈ levels ∧ nid ∈ prev ∧
              c ∈ default [] (children !! nid).

(** The shape of the dictionary [levels]: level 0 is the root list, a
    later level has no repetition and holds children of the level before,
    and an id standing in two levels stands in two levels in a row. *)
Definition level_shape (children : gmap Z (list Z)) (root_ids : list Z)
    (levels : list (nat * list Z)) : Prop :=
  (∀ ids, (0%nat, ids) ∈ levels → ids = root_ids) ∧
  (∀ l ids, (S l, ids) ∈ levels →
     NoDup ids ∧ ∀ c, c ∈ ids → child_of_level children levels l c) ∧
  (∀ l1 l2 ids1 ids2 k,
     (l1, ids1) ∈ levels → (l2, ids2) ∈ levels →
     k ∈ ids1 → k ∈ ids2 → (l1 < l2)%nat → l2 = S l1).

(** What holds of [levels], [visited], [current] and [level] at the top of
    the loop [while current]. *)
Definition loop_shape (children : gmap Z (list Z)) (root_ids : list Z)
    (levels : list (nat * list Z)) (vis : gset Z) (current : list Z)
    (level : nat) : Prop :=
  level_shape children root_ids levels ∧
  (∀ l ids, (l, ids) ∈ levels → (l < level)%nat ∧ ∀ k, k ∈ ids → k ∈ vis) ∧
  (∀ k l ids, k ∈ current → (l, ids) ∈ levels → k ∈ ids → S l = level) ∧
  (level = 0%nat → current = root_ids) ∧
  (∀ l, level = S l →
     NoDup current ∧ ∀ c, c ∈ current → child_of_level children levels l c).

(** ** MainWindow.save_positions *)

(** [person["x"] = pos.x()] and [person["y"] = pos.y()]. *)
Definition set_xy (pos : Q * Q) (p : Person) : Person :=
  mkPerson (ident p) (nombre p) (fecha_nacimiento p) (padres p) (hijos p)
           (descripcion p) (Some pos.1) (Some pos.2).

(** One round of [for id_, node in self.node_map.items()]. *)
Definition store_position (ppl : list Person) (item : Z * (Q * Q))
  : list Person :=
  match get item.1 ppl with
  | Some (j, _) => alter (set_xy item.2) j ppl
  | None => ppl
  end.

(** What a UI method can let through to the event loop: an exception of
    the model, or an attribute read on [None]. *)
Inductive ui_exn := FromModel (e : exn) | AttributeError.

Inductive ui_result := Handled | Propagated (e : ui_exn).

(** [save_positions], up to the message box.  The rounds of the loop write
    to the records of different ids, so the order of [node_map.items()]
    does not matter. *)
Definition save_positions (w : MainWindow) : ui_result * MainWindow :=
  let ppl := foldl store_position (people (model w))
                   (map_to_list (node_map w)) in
  match (write_people ppl ;; save) (model w) with
  | (Returned _, m) => (Handled, mkWindow m (node_map w) (edge_items w))
  | (Raised e, m) =>
      (Propagated (FromModel e), mkWindow m (node_map w) (edge_items w))
  end.

(** ** Actions of the user *)

(** [add_person_dialog]: [ok] and [name] are what the first input dialog
    returned, [dob] and [desc] the texts of the other two. *)
Definition add_person_dialog (ok : bool) (name dob desc : string)
    (w : MainWindow) : ui_result * MainWindow :=
  if negb ok || bool_decide (name = "") then (Handled, w)
  else match add_person name dob desc None None (model w) with
       | (Returned _, m) =>
           (Handled, reload_scene (mkWindow m (node_map w) (edge_items w)))
       | (Raised e, m) =>
           (Propagated (FromModel e),
            mkWindow m (node_map w) (edge_items w))
       end.

(** The entry "Agregar hijo" of [NodeItem.contextMenuEvent].  [i] is the
    reference [self.person]: the node was built by [reload_scene] from the
    [i]-th dictionary of the list, so [i] is a position of the list. *)
Definition add_child_action (i : nat) (ok : bool) (name : string)
    (w : MainWindow) : ui_result * MainWindow :=
  let window m := mkWindow m (node_map w) (edge_items w) in
  if negb ok || bool_decide (name = "") then (Handled, w)
  else match add_person name "" "" None None (model w) with
       | (Raised e, m1) => (Propagated (FromModel e), window m1)
       | (Returned child_id, m1) =>
           let ppl1 := people m1 in
           match ppl1 !! i with
           | None => (Handled, window m1)
           | Some person =>
               let ppl2 :=
                 if decide (child_id ∈ hijos_of person) then ppl1
                 else alter (append_hijo child_id) i ppl1 in
               match get child_id ppl2 with
               | None =>
                   (Propagated AttributeError,
                    window (mkModel ppl2 (file m1) (writable m1)))
               | Some (j, _) =>
                   let ppl3 := alter (append_padre (ident person)) j ppl2 in
                   match (write_people ppl3 ;; save) m1 with
                   | (Returned _, m2) => (Handled, reload_scene (window m2))
                   | (Raised e, m2) =>
                       (Propagated (FromModel e), window m2)
                   end
               end
           end
       end.

(** The entry "Eliminar persona", once the question is answered with yes. *)
Definition delete_action (i : nat) (w : MainWindow) : ui_result * MainWindow :=
  let window m := mkWindow m (node_map w) (edge_items w) in
  match people (model w) !! i with
  | None => (Handled, w)
  | Some person =>
      match delete_person (ident person) (model w) with
      | (Returned _, m) => (Handled, reload_scene (window m))
      | (Raised e, m) => (Propagated (FromModel e), window m)
      end
  end.

(** ** EditPersonDialog *)

(** The items of each of the two list widgets built by [build_ui]: the ids
    of the records other than the one edited. *)
Definition dialog_items (person : Person) (ppl : list Person) : list Z :=
  ident <$> filter (λ p, ident p ≠ ident person) ppl.

(** [accept]: [name], [dob] and [desc] are the stripped texts, [parents]
    and [children] the ids of the selected items; [i] is the reference
    [self.person]. *)
Definition accept (i : nat) (name dob desc : string)
    (parents children : list Z) : Method unit :=
  ppl ← read_people;
  match ppl !! i with
  | None => mret tt
  | Some person =>
      update_person (ident person)
        (mkKwargs (Given name) (Given dob) (Given desc)
                  (Given parents) (Given children)) ;;
      mret tt
  end.

(** Every id listed in a record of [ppl] satisfies [K]. *)
Definition listed (K : Z → Prop) (ppl : list Person) : Prop :=
  ∀ s p k, p ∈ ppl → k ∈ rel s p → K k.

(** * List objects

    [add_person] keeps the list object it is handed ([parents or []]) and
    [update_person] assigns the one it is handed ([p["padres"] =
    new_parents]); later calls change these objects in place through
    [append] and [remove].  A list handed to two calls is therefore
    shared by two records, and a change made through one shows in the
    other.  [FamilyModel] above takes lists by value, which describes a
    call on lists built for it; this part keeps the list objects apart
    from the dictionaries that refer to them, so that a sequence of calls
    can hand over the same object twice. *)

(** A list object is known by its place in the memory. *)
Abbreviation loc := nat (only parsing).

(** A person dictionary: ["padres"] and ["hijos"], when present, refer to
    list objects. *)
Record Dict := mkDict {
  dict_id : Z;
  dict_nombre : string;
  dict_fecha_nacimiento : string;
  dict_padres : option loc;
  dict_hijos : option loc;
  dict_descripcion : string;
  dict_x : option Q;
  dict_y : option Q
}.

(** [self.people] and the list objects. *)
Record Memory := mkMemory {
  dicts : list Dict;
  objects : list (list Z)
}.

(** What the list object [r] holds at present. *)
Definition contents (mem : Memory) (r : loc) : list Z :=
  default [] (objects mem !! r).

(** A dictionary with the present contents of its lists in place of the
    references, and [self.people] read that way. *)
Definition deref (mem : Memory) (d : Dict) : Person :=
  mkPerson (dict_id d) (dict_nombre d) (dict_fecha_nacimiento d)
           (contents mem <$> dict_padres d) (contents mem <$> dict_hijos d)
           (dict_descripcion d) (dict_x d) (dict_y d).

Definition view (mem : Memory) : list Person := deref mem <$> dicts mem.

(** A keyword argument of [update_person] that is a list is a reference. *)
Record ref_kwargs := mkRefKwargs {
  rk_nombre : kwarg string;
  rk_fecha_nacimiento : kwarg string;
  rk_descripcion : kwarg string;
  rk_padres : kwarg loc;
  rk_hijos : kwarg loc
}.

(** A list argument as the caller passes it: a list built for this call,
    or an object that exists already. *)
Inductive larg :=
| Built (l : list Z)
| Held (r : loc).

Module Mem.

(** A new list object. *)
Definition alloc (l : list Z) (mem : Memory) : loc * Memory :=
  (length (objects mem), mkMemory (dicts mem) (objects mem ++ [l])).

(** [d["padres"]] and [d["hijos"]] as references, and their assignment. *)
Definition ref (s : side) (d : Dict) : option loc :=
  match s with Padres => dict_padres d | Hijos => dict_hijos d end.

Definition set_ref (s : side) (r : loc) (d : Dict) : Dict :=
  match s with
  | Padres =>
      mkDict (dict_id d) (dict_nombre d) (dict_fecha_nacimiento d)
             (Some r) (dict_hijos d) (dict_descripcion d) (dict_x d) (dict_y d)
  | Hijos =>
      mkDict (dict_id d) (dict_nombre d) (dict_fecha_nacimiento d)
             (dict_padres d) (Some r) (dict_descripcion d) (dict_x d) (dict_y d)
  end.

(** A change of the list object [r] in place: [l.append(a)] is
    [change (λ l, l ++ [a])] and [l.remove(a)] is
    [change (remove_first a)]. *)
Definition change (f : list Z → list Z) (r : loc) (mem : Memory) : Memory :=
  mkMemory (dicts mem) (alter f r (objects mem)).

(** [d.setdefault(key, [])] on the dictionary at place [i]: the list
    object under the key, a new empty one being stored there first when
    the key is missing. *)
Definition setdefault (s : side) (i : nat) (mem : Memory) : loc * Memory :=
  match dicts mem !! i ≫= ref s with
  | Some r => (r, mem)
  | None =>
      let '(r, mem1) := alloc [] mem in
      (r, mkMemory (alter (set_ref s r) i (dicts mem1)) (objects mem1))
  end.

(** The body of the loops that add a back-reference:
    [p = self.get(k)] and
    [if p and own not in p.get(key, []): p.setdefault(key, []).append(own)]. *)
Definition link (s : side) (own : Z) (mem : Memory) (k : Z) : Memory :=
  match get k (view mem) with
  | Some (i, q) =>
      if decide (own ∈ rel s q) then mem
      else let '(r, mem1) := setdefault s i mem in
           change (λ l, l ++ [own]) r mem1
  | None => mem
  end.

(** The body of the loops that withdraw a back-reference:
    [if k not in new: q = self.get(k)] and
    [if q and own in q.get(key, []): q[key].remove(own)].  [new] is read
    as it is when the round runs; [q[key]] is there when the test before
    it holds. *)
Definition unlink (s : side) (own : Z) (new : loc) (mem : Memory) (k : Z)
  : Memory :=
  if decide (k ∈ contents mem new) then mem
  else match get k (view mem) with
       | Some (j, q) =>
           if decide (own ∈ rel s q)
           then match dicts mem !! j ≫= ref s with
                | Some r => change (remove_first own) r mem
                | None => mem
                end
           else mem
       | None => mem
       end.

(** [for x in r: body], on the list object itself: the iterator reads the
    object at the next place in every round, so that an element appended
    during the loop is visited too.  [fuel] bounds the number of rounds;
    [None] means it ran out. *)
Fixpoint for_each (fuel : nat) (r : loc) (place : nat)
    (body : Memory → Z → Memory) (mem : Memory) : option Memory :=
  match contents mem r !! place with
  | None => Some mem
  | Some x =>
      match fuel with
      | O => None
      | S fuel' => for_each fuel' r (S place) body (body mem x)
      end
  end.

(** Rounds for a loop over [r] whose body is [link]: the body appends one
    value only, and only to a list that lacks it, so the list under the
    loop grows by one element at most. *)
Definition rounds (mem : Memory) (r : loc) : nat :=
  S (length (contents mem r)).

(** [parents or []]: the object handed over, or a new empty list when the
    argument is [None] or an empty list. *)
Definition or_empty (arg : option loc) (mem : Memory) : loc * Memory :=
  match arg with
  | Some r => if decide (contents mem r = []) then alloc [] mem else (r, mem)
  | None => alloc [] mem
  end.

(** [add_person] up to [self.save()]: the id it returns and the memory it
    leaves. *)
Definition add_person (name dob description : string)
    (parents children : option loc) (mem : Memory) : option (Z * Memory) :=
  let new_id := max_id (view mem) + 1 in
  let '(rp, mem1) := or_empty parents mem in
  let '(rc, mem2) := or_empty children mem1 in
  let person :=
    mkDict new_id name dob (Some rp) (Some rc) description None None in
  let mem3 := mkMemory (dicts mem2 ++ [person]) (objects mem2) in
  mem4 ← for_each (rounds mem3 rp) rp 0 (link Hijos new_id) mem3;
  mem5 ← for_each (rounds mem4 rc) rc 0 (link Padres new_id) mem4;
  Some (new_id, mem5).

(** The three scalar assignments [p[k] = kwargs[k]]. *)
Definition update_scalars (kw : ref_kwargs) (d : Dict) : Dict :=
  mkDict (dict_id d)
         (default (dict_nombre d) (supplied (rk_nombre kw)))
         (default (dict_fecha_nacimiento d)
                  (supplied (rk_fecha_nacimiento kw)))
         (dict_padres d) (dict_hijos d)
         (default (dict_descripcion d) (supplied (rk_descripcion kw)))
         (dict_x d) (dict_y d).

(** One of the two blocks of [update_person], for the key [s] and the
    list object [new]; [i] is the reference [p].  The first loop runs over
    a copy, [list(p.get(key, []))]; the assignment stores the object
    [new] itself; the second loop runs over that object. *)
Definition replace_rel (s : side) (i : nat) (new : loc) (mem : Memory)
  : option Memory :=
  match view mem !! i with
  | None => Some mem
  | Some p =>
      let mem1 := foldl (unlink (flip s) (ident p) new) mem (rel s p) in
      let mem2 :=
        mkMemory (alter (set_ref s new) i (dicts mem1)) (objects mem1) in
      for_each (rounds mem2 new) new 0 (link (flip s) (ident p)) mem2
  end.

(** The body of [update_person] once [p] is found, up to [self.save()]. *)
Definition updated (i : nat) (kw : ref_kwargs) (mem : Memory)
  : option Memory :=
  let mem1 := mkMemory (alter (update_scalars kw) i (dicts mem))
                       (objects mem) in
  mem2 ← from_option (λ new, replace_rel Padres i new mem1) (Some mem1)
                     (supplied (rk_padres kw));
  from_option (λ new, replace_rel Hijos i new mem2) (Some mem2)
              (supplied (rk_hijos kw)).

Definition update_person (id_ : Z) (kw : ref_kwargs) (mem : Memory)
  : option (bool * Memory) :=
  match get id_ (view mem) with
  | None => Some (false, mem)
  | Some (i, _) => mem' ← updated i kw mem; Some (true, mem')
  end.

(** [if id_ in other.get(key, []): other[key].remove(id_)]. *)
Definition drop_reference (s : side) (id_ : Z) (mem : Memory) (other : Dict)
  : Memory :=
  match ref s other with
  | Some r =>
      if decide (id_ ∈ contents mem r) then change (remove_first id_) r mem
      else mem
  | None => mem
  end.

(** The body of [for other in self.people] of [delete_person]. *)
Definition drop_references (id_ : Z) (mem : Memory) (other : Dict) : Memory :=
  drop_reference Hijos id_ (drop_reference Padres id_ mem other) other.

(** [delete_person] up to [self.save()]. *)
Definition delete_person (id_ : Z) (mem : Memory) : bool * Memory :=
  match get id_ (view mem) with
  | None => (false, mem)
  | Some _ =>
      let mem1 := foldl (drop_references id_) mem (dicts mem) in
      (true, mkMemory (filter (λ d, dict_id d ≠ id_) (dicts mem1))
                      (objects mem1))
  end.

(** ** Calls on list objects *)

(** The caller evaluates a list argument: a list built for the call is a
    new object. *)
Definition pass (a : larg) (mem : Memory) : loc * Memory :=
  match a with
  | Built l => alloc l mem
  | Held r => (r, mem)
  end.

Definition pass_opt (a : option larg) (mem : Memory) : option loc * Memory :=
  match a with
  | Some a => let '(r, mem1) := pass a mem in (Some r, mem1)
  | None => (None, mem)
  end.

Definition pass_kw (a : kwarg larg) (mem : Memory) : kwarg loc * Memory :=
  match a with
  | Given a => let '(r, mem1) := pass a mem in (Given r, mem1)
  | PyNone => (PyNone, mem)
  | Omitted => (Omitted, mem)
  end.

Inductive call :=
| AddCall (name dob description : string) (parents children : option larg)
| UpdateCall (id_ : Z) (nombre fecha_nacimiento descripcion : kwarg string)
             (padres hijos : kwarg larg)
| DeleteCall (id_ : Z).

(** The memory a call leaves behind, whether [save] then completes or
    raises; [None] when a loop ran out of rounds. *)
Definition exec (c : call) (mem : Memory) : option Memory :=
  match c with
  | AddCall name dob description parents children =>
      let '(ps, mem1) := pass_opt parents mem in
      let '(cs, mem2) := pass_opt children mem1 in
      snd <$> add_person name dob description ps cs mem2
  | UpdateCall id_ nombre fecha_nacimiento descripcion padres hijos =>
      let '(pa, mem1) := pass_kw padres mem in
      let '(hi, mem2) := pass_kw hijos mem1 in
      snd <$> update_person id_
                (mkRefKwargs nombre fecha_nacimiento descripcion pa hi) mem2
  | DeleteCall id_ => Some (delete_person id_ mem).2
  end.

Fixpoint run (calls : list call) (mem : Memory) : option Memory :=
  match calls with
  | [] => Some mem
  | c :: calls' => mem' ← exec c mem; run calls' mem'
  end.

(** The lists of a call as values: what a list built for the call holds,
    and what an existing object holds when the call is made. *)
Definition value (mem : Memory) (a : larg) : list Z :=
  match a with
  | Built l => l
  | Held r => contents mem r
  end.

Definition kw_value (mem : Memory) (a : kwarg larg) : kwarg (list Z) :=
  match a with
  | Given a => Given (value mem a)
  | PyNone => PyNone
  | Omitted => Omitted
  end.

Definition by_value (mem : Memory) (c : call) : op :=
  match c with
  | AddCall name dob description parents children =>
      Add name dob description (value mem <$> parents)
          (value mem <$> children)
  | UpdateCall id_ nombre fecha_nacimiento descripcion padres hijos =>
      Update id_ (mkKwargs nombre fecha_nacimiento descripcion
                           (kw_value mem padres) (kw_value mem hijos))
  | DeleteCall id_ => Delete id_
  end.

(** Every list of the call was built for it. *)
Definition built (a : larg) : Prop :=
  match a with Built _ => True | Held _ => False end.

Definition fresh_lists (c : call) : Prop :=
  match c with
  | AddCall _ _ _ parents children =>
      from_option built True parents ∧ from_option built True children
  | UpdateCall _ _ _ _ padres hijos =>
      from_option built True (supplied padres) ∧
      from_option built True (supplied hijos)
  | DeleteCall _ => True
  end.

(** Calls that each hand over lists built for them, without repetition
    and holding ids of the store only. *)
Fixpoint valid_calls (calls : list call) (mem : Memory) : Prop :=
  match calls with
  | [] => True
  | c :: calls' =>
      fresh_lists c ∧
      known_args (by_value mem c) (view mem) ∧
      dup_free_args (by_value mem c) ∧
      ∀ mem', exec c mem = Some mem' → valid_calls calls' mem'
  end.

End Mem.

(** ** Which dictionary refers to which list object *)

(** The dictionary at place [i] refers to [r] under the key [s]. *)
Definition holds (mem : Memory) (i : nat) (s : side) (r : loc) : Prop :=
  ∃ d, dicts mem !! i = Some d ∧ Mem.ref s d = Some r.




(** The list under a key, or nothing when the key is missing. *)
Definition key (s : side) (p : Person) : option (list Z) :=
  match s with Padres => padres p | Hijos => hijos p end.

(** [mem'] is [mem] with further list objects. *)
Definition grown (mem mem' : Memory) : Prop :=
  dicts mem' = dicts mem ∧ ∃ ext, objects mem' = objects mem ++ ext.





(** ** Lists *)

Lemma remove_first_not_elem (a : Z) (l : list Z) :
  a ∉ l → remove_first a l = l.
Proof.
  induction l as [|b l IH]; simpl; [done|].
  intros Hn. apply not_elem_of_cons in Hn as [Hab Hl].
  rewrite decide_False by done. by rewrite IH.
Qed.

Lemma elem_of_remove_first (a k : Z) (l : list Z) :
  k ∈ remove_first a l → k ∈ l.
Proof.
  induction l as [|b l IH]; simpl; [done|].
  case_decide; set_solver.
Qed.

Lemma elem_of_remove_first_ne (a k : Z) (l : list Z) :
  k ≠ a → k ∈ remove_first a l ↔ k ∈ l.
Proof.
  intros Hne. induction l as [|b l IH]; simpl; [done|].
  case_decide; set_solver.
Qed.

Lemma NoDup_remove_first (a : Z) (l : list Z) :
  NoDup l → NoDup (remove_first a l) ∧ a ∉ remove_first a l.
Proof.
  induction 1 as [|b l Hb Hl IH]; simpl.
  - split; [constructor | set_solver].
  - case_decide as Hab.
    + subst. done.
    + destruct IH as [IH1 IH2]. split.
      * constructor; [|done]. intros Hin%elem_of_remove_first. done.
      * set_solver.
Qed.

Lemma foldl_preserves {A B} (P : A → Prop) (f : A → B → A) (l : list B) (a : A) :
  (∀ a b, P a → P (f a b)) → P a → P (foldl f a l).
Proof. intros Hf. revert a. induction l; simpl; auto. Qed.

(** ** References into the list *)

Lemma get_Some (id_ : Z) (ppl : list Person) (i : nat) (p : Person) :
  get id_ ppl = Some (i, p) →
  ppl !! i = Some p ∧ ident p = id_ ∧ p ∈ ppl.
Proof.
  intros (Hi & Hp & _)%list_find_Some.
  eauto using list_elem_of_lookup_2.
Qed.

Lemma get_None (id_ : Z) (ppl : list Person) :
  get id_ ppl = None ↔ id_ ∉ ident <$> ppl.
Proof.
  unfold get. rewrite list_find_None, Forall_forall, list_elem_of_fmap.
  naive_solver.
Qed.

Lemma get_is_Some (id_ : Z) (ppl : list Person) :
  is_Some (get id_ ppl) ↔ id_ ∈ ident <$> ppl.
Proof.
  rewrite <-not_eq_None_Some, get_None. split; [|tauto].
  intros. by apply dec_stable.
Qed.

(** With unique ids, the reference to an id is the one record carrying it. *)
Lemma get_unique (ppl : list Person) (i : nat) (p : Person) :
  unique_ids ppl → ppl !! i = Some p → get (ident p) ppl = Some (i, p).
Proof.
  intros Hu Hi. apply list_find_Some. split_and!; [done..|].
  intros j q Hj Hlt Heq.
  assert (i = j); [|lia].
  eapply (NoDup_lookup _ _ _ _ Hu); rewrite list_lookup_fmap.
  - by rewrite Hi.
  - rewrite Hj. simpl. by rewrite Heq.
Qed.

Lemma alter_proj {B} (g : Person → B) (f : Person → Person) (i : nat)
    (ppl : list Person) :
  (∀ p, g (f p) = g p) → g <$> alter f i ppl = g <$> ppl.
Proof.
  intros Hf. revert i.
  induction ppl as [|q ppl IH]; intros [|i]; simpl; [done..| |].
  - by rewrite Hf.
  - f_equal. apply IH.
Qed.

Section projections.
Context {B : Type} (g : Person → B) (Hg : rel_blind g).

Lemma link_hijo_proj (n : Z) (ppl : list Person) (k : Z) :
  g <$> link_hijo n ppl k = g <$> ppl.
Proof.
  unfold link_hijo. destruct (get k ppl) as [[i p]|]; [|done].
  case_decide; [done|]. apply alter_proj. intros q. apply Hg.
Qed.

Lemma link_padre_proj (n : Z) (ppl : list Person) (k : Z) :
  g <$> link_padre n ppl k = g <$> ppl.
Proof.
  unfold link_padre. destruct (get k ppl) as [[i p]|]; [|done].
  case_decide; [done|]. apply alter_proj. intros q. apply Hg.
Qed.

Lemma unlink_hijo_proj (own : Z) (new : list Z) (ppl : list Person) (k : Z) :
  g <$> unlink_hijo own new ppl k = g <$> ppl.
Proof.
  unfold unlink_hijo. case_decide; [done|].
  destruct (get k ppl) as [[i p]|]; [|done].
  case_decide; [|done]. apply alter_proj. intros q. apply Hg.
Qed.

Lemma unlink_padre_proj (own : Z) (new : list Z) (ppl : list Person) (k : Z) :
  g <$> unlink_padre own new ppl k = g <$> ppl.
Proof.
  unfold unlink_padre. case_decide; [done|].
  destruct (get k ppl) as [[i p]|]; [|done].
  case_decide; [|done]. apply alter_proj. intros q. apply Hg.
Qed.

Lemma foldl_proj (step : list Person → Z → list Person) (l : list Z)
    (ppl : list Person) :
  (∀ q k, g <$> step q k = g <$> q) →
  g <$> foldl step ppl l = g <$> ppl.
Proof.
  intros Hstep.
  apply (foldl_preserves (λ q, g <$> q = g <$> ppl)); [|done].
  intros q k Hq. by rewrite Hstep.
Qed.

Lemma replace_padres_proj (i : nat) (new : list Z) (ppl : list Person) :
  g <$> replace_padres i new ppl = g <$> ppl.
Proof.
  unfold replace_padres. destruct (ppl !! i) as [p|]; [|done].
  rewrite foldl_proj by apply link_hijo_proj.
  rewrite alter_proj by (intros q; apply Hg).
  by rewrite foldl_proj by apply unlink_hijo_proj.
Qed.

Lemma replace_hijos_proj (i : nat) (new : list Z) (ppl : list Person) :
  g <$> replace_hijos i new ppl = g <$> ppl.
Proof.
  unfold replace_hijos. destruct (ppl !! i) as [p|]; [|done].
  rewrite foldl_proj by apply link_padre_proj.
  rewrite alter_proj by (intros q; apply Hg).
  by rewrite foldl_proj by apply unlink_padre_proj.
Qed.

(** A part of the record that neither the relationship lists nor the
    keyword arguments at hand touch stays as it was in every record. *)
Lemma updated_proj (i : nat) (kw : kwargs) (ppl : list Person) :
  (∀ p, g (update_scalars kw p) = g p) →
  g <$> updated i kw ppl = g <$> ppl.
Proof.
  intros Hs. unfold updated.
  destruct (supplied (kw_hijos kw)), (supplied (kw_padres kw)); simpl;
    rewrite ?replace_hijos_proj, ?replace_padres_proj; by apply alter_proj.
Qed.
End projections.

Lemma ident_blind : rel_blind ident.
Proof. done. Qed.

Lemma update_scalars_ident (kw : kwargs) (p : Person) :
  ident (update_scalars kw p) = ident p.
Proof.
  unfold update_scalars.
  destruct (supplied (kw_nombre kw)), (supplied (kw_fecha_nacimiento kw)),
    (supplied (kw_descripcion kw)); done.
Qed.

Lemma update_scalars_padres (kw : kwargs) (p : Person) :
  padres (update_scalars kw p) = padres p.
Proof.
  unfold update_scalars.
  destruct (supplied (kw_nombre kw)), (supplied (kw_fecha_nacimiento kw)),
    (supplied (kw_descripcion kw)); done.
Qed.

Lemma update_scalars_hijos (kw : kwargs) (p : Person) :
  hijos (update_scalars kw p) = hijos p.
Proof.
  unfold update_scalars.
  destruct (supplied (kw_nombre kw)), (supplied (kw_fecha_nacimiento kw)),
    (supplied (kw_descripcion kw)); done.
Qed.

Lemma updated_idents (i : nat) (kw : kwargs) (ppl : list Person) :
  ident <$> updated i kw ppl = ident <$> ppl.
Proof. apply updated_proj; [done | apply update_scalars_ident]. Qed.

(** ** The methods, unfolded *)

Lemma add_person_unfold name dob description parents children m :
  add_person name dob description parents children m =
  commit (append_linked
            (new_person (max_id (people m) + 1) name dob description
                        parents children) (people m))
         (max_id (people m) + 1) m.
Proof.
  unfold add_person, commit, generate_id, read_people, write_people,
    save, mbind, method_bind, mret, method_ret. simpl.
  destruct (writable m) eqn:Hw; simpl; rewrite ?Hw; done.
Qed.

Lemma update_person_unfold id_ kw m :
  update_person id_ kw m =
  match get id_ (people m) with
  | None => (Returned false, m)
  | Some (i, _) => commit (updated i kw (people m)) true m
  end.
Proof.
  unfold update_person, commit, read_people, write_people,
    save, mbind, method_bind, mret, method_ret. simpl.
  destruct (get id_ (people m)) as [[i p]|]; [|done].
  simpl. destruct (writable m) eqn:Hw; simpl; rewrite ?Hw; done.
Qed.

Lemma delete_person_unfold id_ m :
  delete_person id_ m =
  match get id_ (people m) with
  | None => (Returned false, m)
  | Some _ => commit (deleted id_ (people m)) true m
  end.
Proof.
  unfold delete_person, commit, read_people, write_people,
    save, mbind, method_bind, mret, method_ret. simpl.
  destruct (get id_ (people m)) as [[i p]|]; [|done].
  simpl. destruct (writable m) eqn:Hw; simpl; rewrite ?Hw; done.
Qed.


Lemma people_commit {A} (ppl : list Person) (a : A) (m : FamilyModel) r m' :
  commit ppl a m = (r, m') → people m' = ppl.
Proof. unfold commit. destruct (writable m); by intros [= <- <-]. Qed.

Lemma outcome_commit {A} (ppl : list Person) (a : A) (m : FamilyModel) :
  (commit ppl a m).1 =
  if writable m then Returned a else Raised StorageWriteError.
Proof. unfold commit. by destruct (writable m). Qed.

(** ** Identifiers *)

Lemma foldl_max_bounds (l : list Person) (acc : Z) :
  let r := foldl (λ acc q, Z.max acc (ident q)) acc l in
  acc ≤ r ∧ (∀ q, q ∈ l → ident q ≤ r) ∧ (r = acc ∨ r ∈ ident <$> l).
Proof.
  revert acc. induction l as [|p l IH]; intros acc; simpl.
  - split_and!; [lia | set_solver | by left].
  - destruct (IH (Z.max acc (ident p))) as (H1 & H2 & H3).
    split_and!; [lia | |].
    + intros q [->|Hq]%elem_of_cons; [lia | by apply H2].
    + destruct H3 as [->|H3]; [|right; set_solver].
      destruct (Z.max_spec acc (ident p)) as [[_ ->]|[_ ->]];
        [right; set_solver | by left].
Qed.

Lemma max_id_upper (ppl : list Person) (p : Person) :
  p ∈ ppl → ident p ≤ max_id ppl.
Proof.
  destruct ppl as [|q l]; [by intros ?%elem_of_nil|].
  simpl. destruct (foldl_max_bounds l (ident q)) as (H1 & H2 & _).
  intros [->|Hp]%elem_of_cons; [done | by apply H2].
Qed.

Lemma max_id_attained (ppl : list Person) :
  ppl ≠ [] → max_id ppl ∈ ident <$> ppl.
Proof.
  destruct ppl as [|q l]; [done|]. intros _.
  simpl. destruct (foldl_max_bounds l (ident q)) as (_ & _ & [->|H3]);
    set_solver.
Qed.

Lemma max_id_fresh (ppl : list Person) : max_id ppl + 1 ∉ ident <$> ppl.
Proof.
  intros (p & Hp & Hin)%list_elem_of_fmap.
  apply max_id_upper in Hin. lia.
Qed.

Lemma append_linked_idents (person : Person) (ppl : list Person) :
  ident <$> append_linked person ppl = (ident <$> ppl) ++ [ident person].
Proof.
  unfold append_linked.
  rewrite (foldl_proj ident) by (by apply link_padre_proj).
  rewrite (foldl_proj ident) by (by apply link_hijo_proj).
  by rewrite fmap_app.
Qed.

(** C6. [generate_id] returns the largest id of the store (0 when the store
    is empty) plus one and leaves the model as it was; the result exceeds
    every id present and is 1 on the empty store.  [add_person] appends a
    record with exactly that id, and that id is what it returns once the
    list is saved. *)
Theorem generate_id_is_max_plus_one (m : FamilyModel)
    (name dob description : string) (parents children : option (list Z)) :
  ∃ g : Z,
    generate_id m = (Returned g, m) ∧
    g = max_id (people m) + 1 ∧
    (people m = [] → g = 1) ∧
    (people m ≠ [] → max_id (people m) ∈ ident <$> people m) ∧
    (∀ p, p ∈ people m → ident p ≤ max_id (people m) ∧ ident p < g) ∧
    ∃ r m',
      add_person name dob description parents children m = (r, m') ∧
      ident <$> people m' = (ident <$> people m) ++ [g] ∧
      r = (if writable m then Returned g else Raised StorageWriteError).
Proof.
  exists (max_id (people m) + 1). split_and!; try done.
  - by intros ->.
  - apply max_id_attained.
  - intros p Hp%max_id_upper. lia.
  - rewrite add_person_unfold.
    destruct (commit _ _ m) as [r m'] eqn:Hc. exists r, m'.
    split_and!; [done | |].
    + apply people_commit in Hc as ->. apply append_linked_idents.
    + pose proof (f_equal fst Hc) as Hr. simpl in Hr. rewrite <-Hr.
      apply outcome_commit.
Qed.

(** ** Unknown ids *)

(** C7. For an id that no record of the store carries, [update_person] and
    [delete_person] return [False] - they do not raise, whatever the state
    of the file - and the model, the list in memory included, is left as it
    was. *)
Theorem unknown_id_returns_false (m : FamilyModel) (id_ : Z) (kw : kwargs) :
  id_ ∉ ident <$> people m →
  update_person id_ kw m = (Returned false, m) ∧
  delete_person id_ m = (Returned false, m).
Proof.
  intros Hid%get_None.
  by rewrite update_person_unfold, delete_person_unfold, Hid.
Qed.

Lemma unknown_id_returns_false_witness :
  let m := mkModel [bare 1 [] [2]; bare 2 [1] []] None false in
  update_person 7 (mkKwargs (Given "Ana") PyNone Omitted (Given [1]) (Given []))
                m = (Returned false, m) ∧
  delete_person 7 m = (Returned false, m).
Proof.
  apply unknown_id_returns_false.
  apply (bool_decide_unpack _). vm_compute. exact I.
Defined.

(** ** Deletion *)

Lemma drop_references_spec (id_ : Z) (p : Person) :
  ident (drop_references id_ p) = ident p ∧
  padres_of (drop_references id_ p) = remove_first id_ (padres_of p) ∧
  hijos_of (drop_references id_ p) = remove_first id_ (hijos_of p).
Proof.
  unfold drop_references.
  destruct (decide (id_ ∈ padres_of p)) as [Hpa|Hpa];
    (case_decide as Hhi; simpl in Hhi; simpl; split_and!; try done;
     by rewrite remove_first_not_elem).
Qed.

Lemma elem_of_deleted (id_ : Z) (ppl : list Person) (q : Person) :
  q ∈ deleted id_ ppl ↔
  ∃ p, p ∈ ppl ∧ ident p ≠ id_ ∧ q = drop_references id_ p.
Proof.
  unfold deleted. rewrite list_elem_of_filter, list_elem_of_fmap.
  split.
  - intros (Hne & p & -> & Hp). exists p. split_and!; [done| |done].
    by rewrite <-(proj1 (drop_references_spec id_ p)).
  - intros (p & Hp & Hne & ->). split; [|by exists p].
    by rewrite (proj1 (drop_references_spec id_ p)).
Qed.

(** C5. After a successful [delete_person(id)] on a store whose
    relationship lists have no repetitions, no record left lists [id] as a
    parent or as a child, and [get(id)] finds nothing. *)
Theorem delete_completeness (m m' : FamilyModel) (id_ : Z) :
  dup_free (people m) →
  delete_person id_ m = (Returned true, m') →
  (∀ q, q ∈ people m' → (id_ ∉ padres_of q) ∧ (id_ ∉ hijos_of q)) ∧
  get id_ (people m') = None.
Proof.
  intros Hdf. rewrite delete_person_unfold.
  destruct (get id_ (people m)) as [[i p]|]; [|by intros [= ]].
  intros Hc. apply people_commit in Hc as ->. split.
  - intros q (a & Ha & Hne & ->)%elem_of_deleted.
    destruct (drop_references_spec id_ a) as (_ & -> & ->).
    destruct (Hdf a Ha) as [Hpa Hhi].
    split; by apply NoDup_remove_first.
  - apply get_None. intros (q & Hq & Hin)%list_elem_of_fmap.
    apply elem_of_deleted in Hin as (a & _ & Hne & ->).
    by rewrite (proj1 (drop_references_spec id_ a)) in Hq.
Qed.

Lemma dup_free_cons (p : Person) (ppl : list Person) :
  NoDup (padres_of p) → NoDup (hijos_of p) → dup_free ppl →
  dup_free (p :: ppl).
Proof.
  intros Hpa Hhi Hdf q [->|Hq]%elem_of_cons; [done | by apply Hdf].
Qed.

Lemma dup_free_nil : dup_free [].
Proof. by intros q ?%elem_of_nil. Qed.

Lemma delete_completeness_witness :
  let m := mkModel [bare 1 [] [2]; bare 2 [1] []] None true in
  let m' := mkModel [bare 2 [] []] (Some [bare 2 [] []]) true in
  (∀ q, q ∈ people m' → (1 ∉ padres_of q) ∧ (1 ∉ hijos_of q)) ∧
  get 1 (people m') = None.
Proof.
  intros m m'. apply (delete_completeness m m' 1).
  - simpl.
    repeat (apply dup_free_cons;
            [apply (bool_decide_unpack _); vm_compute; exact I..|]).
    apply dup_free_nil.
  - reflexivity.
Defined.

(** C10. [delete_person] takes out of each list the first occurrence of
    the deleted id and nothing else; on the store where record 1 lists 2
    twice among its children, deleting 2 leaves record 1 still listing 2. *)
Theorem delete_removes_first_occurrence_only :
  (∀ id_ ppl q, q ∈ deleted id_ ppl →
     ∃ p, p ∈ ppl ∧ ident p ≠ id_ ∧ ident q = ident p ∧
          padres_of q = remove_first id_ (padres_of p) ∧
          hijos_of q = remove_first id_ (hijos_of p)) ∧
  let m := mkModel [bare 1 [] [2; 2]; bare 2 [1] []] None true in
  ∃ m' q,
    delete_person 2 m = (Returned true, m') ∧
    people m' = [q] ∧ ident q = 1 ∧ hijos_of q = [2] ∧
    get 2 (people m') = None.
Proof.
  split.
  - intros id_ ppl q (p & Hp & Hne & ->)%elem_of_deleted.
    destruct (drop_references_spec id_ p) as (Hid & Hpa & Hhi).
    by exists p.
  - eexists _, _. split_and!; reflexivity.
Qed.

(** ** Levelling *)

Lemma scan_children_spec (vis : gset Z) (cs nxt : list Z) (c : Z) :
  c ∈ scan_children vis nxt cs → c ∈ nxt ∨ (c ∈ cs ∧ (c ∉ vis)).
Proof.
  unfold scan_children. revert nxt.
  induction cs as [|d cs IH]; intros nxt; simpl; [by left|].
  intros Hc. apply IH in Hc as [Hc|[Hc Hv]]; [|right; set_solver].
  repeat case_decide; try (by left).
  apply elem_of_app in Hc as [Hc|Hc]; [by left|].
  apply list_elem_of_singleton in Hc as ->. right. set_solver.
Qed.

Lemma visit_level_fold (children : gmap Z (list Z)) (current : list Z)
    (vis0 vis' : gset Z) (nxt0 nxt : list Z) :
  foldl (λ '(vis, nxt) nid,
           let vis' := {[nid]} ∪ vis in
           (vis', scan_children vis' nxt (default [] (children !! nid))))
        (vis0, nxt0) current = (vis', nxt) →
  vis' = list_to_set current ∪ vis0 ∧
  ∀ c, c ∈ nxt →
    c ∈ nxt0 ∨ ((c ∉ vis0) ∧ ∃ nid, nid ∈ current ∧
                                     c ∈ default [] (children !! nid)).
Proof.
  revert vis0 nxt0. induction current as [|nid cur IH]; intros vis0 nxt0.
  - simpl. intros [= <- <-]. split; [set_solver | by left].
  - simpl. intros [Hv Hn]%IH.
    split; [rewrite Hv; set_solver|].
    intros c Hc. apply Hn in Hc as [Hc|(Hc & k & Hk & Hck)].
    + apply scan_children_spec in Hc as [Hc|[Hc Hcv]]; [by left|].
      right. split; [set_solver|]. exists nid. set_solver.
    + right. split; [set_solver|]. exists k. set_solver.
Qed.

Lemma visit_level_spec (children : gmap Z (list Z)) (vis : gset Z)
    (current : list Z) (vis' : gset Z) (nxt : list Z) :
  visit_level children vis current = (vis', nxt) →
  vis' = list_to_set current ∪ vis ∧
  ∀ c, c ∈ nxt →
    (c ∉ vis) ∧ ∃ nid, nid ∈ current ∧ c ∈ default [] (children !! nid).
Proof.
  unfold visit_level. intros [Hv Hn]%visit_level_fold. split; [done|].
  intros c Hc. apply Hn in Hc as [Hc|Hc]; [by apply elem_of_nil in Hc | done].
Qed.

Lemma potential_decreases (U vis vis' : gset Z) (current nxt : list Z) :
  current ≠ [] → nxt ≠ [] →
  (∀ k, k ∈ current → k ∈ U) →
  vis' = list_to_set current ∪ vis →
  (∀ c, c ∈ nxt → c ∉ vis) →
  (potential U vis' nxt < potential U vis current)%nat.
Proof.
  intros Hcur Hnxt HU -> Hfresh. unfold potential.
  destruct (decide (Exists (λ k, k ∉ vis) current)) as [Hex|Hall].
  - apply Exists_exists in Hex as (k & Hk & Hkv).
    assert (U ∖ (list_to_set current ∪ vis) ⊂ U ∖ vis) as Hsub.
    { split; [set_solver|]. intros Hs. specialize (Hs k).
      specialize (HU k Hk). set_solver. }
    apply subset_size in Hsub. case_decide; lia.
  - assert (list_to_set current ∪ vis = vis) as ->.
    { apply set_eq. intros k. split; [|set_solver].
      intros [Hk%elem_of_list_to_set|Hk]%elem_of_union; [|done].
      destruct (decide (k ∈ vis)) as [|Hn]; [done|].
      destruct Hall. apply Exists_exists. eauto. }
    rewrite decide_True; [lia|].
    destruct nxt as [|c nxt]; [done|].
    apply Exists_cons_hd. apply Hfresh. set_solver.
Qed.

Section termination.
Context (children : gmap Z (list Z)) (U : gset Z).
Hypothesis children_in_U :
  ∀ nid l c, children !! nid = Some l → c ∈ l → c ∈ U.

Lemma bfs_terminates (fuel : nat) (levels : list (nat * list Z))
    (vis : gset Z) (current : list Z) (level : nat) :
  (∀ k, k ∈ current → k ∈ U) →
  (potential U vis current < fuel)%nat →
  is_Some (bfs fuel children levels vis current level).
Proof.
  revert levels vis current level.
  induction fuel as [|fuel IH]; intros levels vis current level HU Hlt;
    [lia|].
  destruct current as [|k0 cur]; [by eexists|].
  simpl.
  destruct (visit_level children vis (k0 :: cur)) as [vis' nxt] eqn:Hv.
  apply visit_level_spec in Hv as [Hvis Hnxt].
  destruct nxt as [|c nxt]; [destruct fuel; by eexists|].
  apply IH.
  - intros k Hk. apply Hnxt in Hk as (_ & nid & _ & Hk).
    destruct (children !! nid) as [l|] eqn:Hl; simpl in Hk;
      [by eapply children_in_U | by apply elem_of_nil in Hk].
  - assert (potential U vis' (c :: nxt) < potential U vis (k0 :: cur))%nat;
      [|lia].
    apply potential_decreases; [done..|]. intros k Hk. by apply Hnxt.
Qed.
End termination.

Lemma id_to_children_fold (ppl : list Person) (d : gmap Z (list Z))
    (k : Z) (l : list Z) :
  foldl (λ d p, <[ident p := hijos_of p]> d) d ppl !! k = Some l →
  d !! k = Some l ∨ ∃ p, p ∈ ppl ∧ ident p = k ∧ hijos_of p = l.
Proof.
  revert d. induction ppl as [|q ppl IH]; intros d; simpl; [by left|].
  intros [Hd|(p & Hp & Hk & Hl)]%IH.
  - destruct (decide (ident q = k)) as [<-|Hne].
    + rewrite lookup_insert_eq in Hd. right. exists q. set_solver.
    + rewrite lookup_insert_ne in Hd by done. by left.
  - right. exists p. set_solver.
Qed.

Lemma id_to_children_in_universe (ppl : list Person) (nid : Z)
    (l : list Z) (c : Z) :
  id_to_children ppl !! nid = Some l → c ∈ l → c ∈ universe ppl.
Proof.
  unfold id_to_children, universe.
  intros [Hd|(p & Hp & _ & <-)]%id_to_children_fold Hc;
    [by rewrite lookup_empty in Hd|].
  apply elem_of_list_to_set, elem_of_app. right.
  apply list_elem_of_join. exists (hijos_of p). split; [done|].
  apply list_elem_of_fmap. by exists p.
Qed.

(** The loop [while current] always ends: the levelling yields its
    dictionary of levels. *)
Lemma layout_levels_total (ppl : list Person) :
  is_Some (layout_levels ppl).
Proof.
  unfold layout_levels.
  apply (bfs_terminates _ (universe ppl)).
  - apply id_to_children_in_universe.
  - intros k Hk. unfold universe. set_solver.
  - unfold enough_fuel, potential.
    assert (size (universe ppl ∖ ∅) ≤ size (universe ppl))%nat
      by (apply subseteq_size; set_solver).
    case_decide; lia.
Qed.

(** The keys of [levels] are 0, 1, 2, ... in this order, and no level is
    empty. *)
Lemma bfs_levels (fuel : nat) (children : gmap Z (list Z))
    (levels : list (nat * list Z)) (vis : gset Z) (current : list Z)
    (level : nat) (res : list (nat * list Z)) :
  bfs fuel children levels vis current level = Some res →
  ∃ more, res = levels ++ more ∧
          fst <$> more = seq level (length more) ∧
          Forall (λ l, l.2 ≠ []) more.
Proof.
  revert levels vis current level.
  induction fuel as [|fuel IH]; intros levels vis current level.
  - destruct current; simpl; [|done]. intros [= <-].
    exists []. by rewrite app_nil_r.
  - destruct current as [|k0 cur]; simpl.
    { intros [= <-]. exists []. by rewrite app_nil_r. }
    destruct (visit_level children vis (k0 :: cur)) as [vis' nxt].
    intros (more & -> & Hk & Hne)%IH.
    exists ((level, k0 :: cur) :: more). rewrite <-app_assoc. simpl.
    split_and!; [done | by f_equal | by constructor].
Qed.

Lemma layout_levels_keys (ppl : list Person) (levels : list (nat * list Z)) :
  layout_levels ppl = Some levels →
  fst <$> levels = seq 0 (length levels) ∧ Forall (λ l, l.2 ≠ []) levels.
Proof.
  unfold layout_levels. by intros (more & -> & Hk & Hne)%bfs_levels.
Qed.

(** ** Positions *)

Lemma level_slots_lookup (lvl : nat) (ids : list Z) (i : nat) :
  level_slots lvl ids !! i =
  (λ nid, (nid, (slot_x (length ids) i, slot_y lvl))) <$> ids !! i.
Proof. unfold level_slots. by rewrite list_lookup_imap. Qed.

Lemma level_xs_seq (lvl : nat) (ids : list Z) :
  level_xs lvl ids = slot_x (length ids) <$> seq 0 (length ids).
Proof.
  apply list_eq. intros i. unfold level_xs.
  rewrite !list_lookup_fmap, level_slots_lookup.
  destruct (ids !! i) as [nid|] eqn:Hi; simpl.
  - apply lookup_lt_Some in Hi. by rewrite lookup_seq_lt.
  - apply lookup_ge_None in Hi. by rewrite lookup_seq_ge.
Qed.

Lemma level_ys_const (lvl : nat) (ids : list Z) :
  Forall (λ y, y = slot_y lvl) (level_ys lvl ids).
Proof.
  apply Forall_lookup. intros i y. unfold level_ys.
  rewrite list_lookup_fmap, level_slots_lookup.
  destruct (ids !! i); simpl; [by intros [= <-] | done].
Qed.

Lemma Qsum_app (l1 l2 : list Q) : (Qsum (l1 ++ l2) == Qsum l1 + Qsum l2)%Q.
Proof.
  induction l1 as [|q l1 IH]; simpl; [ring|]. rewrite IH. ring.
Qed.

Lemma inject_nat_succ (k : nat) :
  (inject_Z (Z.of_nat (S k)) == inject_Z (Z.of_nat k) + 1)%Q.
Proof. by rewrite Nat2Z.inj_succ, <-Z.add_1_r, inject_Z_plus. Qed.

Lemma slot_x_formula (n i : nat) :
  (slot_x n i ==
   (inject_Z (Z.of_nat i) - (inject_Z (Z.of_nat n) - 1) / 2) * 200)%Q.
Proof.
  unfold slot_x, x_gap. unfold Z.sub. rewrite inject_Z_plus.
  generalize (inject_Z (Z.of_nat i)) (inject_Z (Z.of_nat n)). intros a b.
  change (inject_Z (- (1))) with (- (1))%Q. change (inject_Z 200) with 200%Q.
  field.
Qed.

(** The first [k] coordinates of a level of [n] add up to
    [k * (k - n) * 100]. *)
Lemma slot_x_partial_sum (n k : nat) :
  (Qsum (slot_x n <$> seq 0 k) ==
   inject_Z (Z.of_nat k) * (inject_Z (Z.of_nat k) - inject_Z (Z.of_nat n))
   * 100)%Q.
Proof.
  induction k as [|k IH].
  - simpl. ring.
  - rewrite seq_S, fmap_app, Qsum_app, IH. simpl.
    rewrite slot_x_formula, inject_nat_succ.
    generalize (inject_Z (Z.of_nat k)) (inject_Z (Z.of_nat n)). intros a b.
    field.
Qed.

Lemma level_xs_sum (lvl : nat) (ids : list Z) :
  (Qsum (level_xs lvl ids) == 0)%Q.
Proof. rewrite level_xs_seq, slot_x_partial_sum. ring. Qed.

Lemma level_xs_mean (lvl : nat) (ids : list Z) :
  (mean (level_xs lvl ids) == 0)%Q.
Proof.
  unfold mean. rewrite level_xs_sum. unfold Qdiv. ring.
Qed.

Lemma set_pos_other (nm : gmap Z (Q * Q)) (s : Z * (Q * Z)) (k : Z) :
  s.1 ≠ k → set_pos nm s !! k = nm !! k.
Proof.
  intros Hne. unfold set_pos. destruct (nm !! s.1); [|done].
  by rewrite lookup_insert_ne.
Qed.

Lemma set_pos_keeps_node (nm : gmap Z (Q * Q)) (s : Z * (Q * Z)) (k : Z) :
  is_Some (nm !! k) → is_Some (set_pos nm s !! k).
Proof.
  intros Hk. destruct (decide (s.1 = k)) as [<-|Hne].
  - unfold set_pos. destruct Hk as [v ->]. rewrite lookup_insert_eq. by eexists.
  - by rewrite set_pos_other.
Qed.

Lemma set_pos_same (nm : gmap Z (Q * Q)) (s : Z * (Q * Z)) :
  is_Some (nm !! s.1) → set_pos nm s !! s.1 = Some (s.2.1, inject_Z s.2.2).
Proof.
  intros [v Hv]. unfold set_pos. rewrite Hv. by rewrite lookup_insert_eq.
Qed.

(** A node keeps the coordinates of the last slot that names it. *)
Lemma foldl_set_pos_last (pre post : list (Z * (Q * Z)))
    (nm : gmap Z (Q * Q)) (nid : Z) (x : Q) (y : Z) :
  nid ∉ fst <$> post → is_Some (nm !! nid) →
  foldl set_pos nm (pre ++ (nid, (x, y)) :: post) !! nid
  = Some (x, inject_Z y).
Proof.
  intros Hpost Hnode. rewrite foldl_app. simpl.
  assert (is_Some (foldl set_pos nm pre !! nid)) as Hv.
  { apply (foldl_preserves (λ d, is_Some (d !! nid))); [|done].
    intros d s. apply set_pos_keeps_node. }
  assert (set_pos (foldl set_pos nm pre) (nid, (x, y)) !! nid
          = Some (x, inject_Z y)) as Hset
    by apply (set_pos_same _ (nid, (x, y)) Hv).
  revert Hset. generalize (set_pos (foldl set_pos nm pre) (nid, (x, y))).
  clear Hv. induction post as [|s post IH]; intros d Hd; [done|]. simpl.
  apply not_elem_of_cons in Hpost as [Hs Hpost].
  apply IH; [done|]. rewrite set_pos_other; done.
Qed.

(** C8. The levelling always ends, and for each level [lvl] of the
    dictionary it yields, with [n] ids, the coordinates computed for the id
    in position [i] are [x = (i - (n - 1) / 2) * 200] and [y = lvl * 200];
    these are the coordinates handed to [setPos], and a node that is not
    placed again by a later slot ends there.  The x-coordinates of a level
    have mean 0 and its y-coordinates all equal [lvl * 200]. *)
Theorem layout_positions_centered (ppl : list Person)
    (node_map : gmap Z (Q * Q)) :
  ∃ levels positions,
    layout_levels ppl = Some levels ∧
    fst <$> levels = seq 0 (length levels) ∧
    auto_layout ppl node_map = Some positions ∧
    positions = foldl set_pos node_map
                  (mjoin ((λ l, level_slots l.1 l.2) <$> levels)) ∧
    (∀ pre post nid x y,
       mjoin ((λ l, level_slots l.1 l.2) <$> levels)
         = pre ++ (nid, (x, y)) :: post →
       nid ∉ fst <$> post → is_Some (node_map !! nid) →
       positions !! nid = Some (x, inject_Z y)) ∧
    ∀ lvl ids, (lvl, ids) ∈ levels →
      (∀ i nid, ids !! i = Some nid →
         ∃ x, level_slots lvl ids !! i = Some (nid, (x, Z.of_nat lvl * 200)) ∧
              (x == (inject_Z (Z.of_nat i)
                     - (inject_Z (Z.of_nat (length ids)) - 1) / 2) * 200)%Q) ∧
      length (level_xs lvl ids) = length ids ∧
      (mean (level_xs lvl ids) == 0)%Q ∧
      Forall (λ y, y = Z.of_nat lvl * 200) (level_ys lvl ids).
Proof.
  destruct (layout_levels_total ppl) as [levels Hl].
  exists levels. eexists.
  split_and!; [done | apply (layout_levels_keys _ _ Hl) | | reflexivity | |].
  - unfold auto_layout. rewrite Hl. simpl. do 2 f_equal. unfold slots.
    f_equal. apply list_fmap_ext. by intros _ [lvl ids] _.
  - intros pre post nid x y -> Hpost Hnode. by apply foldl_set_pos_last.
  - intros lvl ids _. split_and!.
    + intros i nid Hi. eexists. rewrite level_slots_lookup, Hi. simpl.
      split; [reflexivity | apply slot_x_formula].
    + unfold level_xs, level_slots. by rewrite length_fmap, length_imap.
    + apply level_xs_mean.
    + apply level_ys_const.
Qed.

(** C3 (what the code does on [two_generations]).  Record 4 is first
    reached at level 1, as a child of root 2; it is found again from
    record 3, which stands in the same level and is handled before 4 is
    marked visited, so 4 is entered in level 2 as well.  It is positioned
    twice and ends at (0, 400), not at its place (100, 200) in level 1. *)
Theorem rediscovered_child_is_levelled_twice :
  layout_levels two_generations =
    Some [(0%nat, [1; 2]); (1%nat, [3; 4]); (2%nat, [4])] ∧
  (∃ x1, level_slots 1 [3; 4] !! 1%nat = Some (4, (x1, 200)) ∧ (x1 == 100)%Q) ∧
  (∃ x2, level_slots 2 [4] !! 0%nat = Some (4, (x2, 400)) ∧ (x2 == 0)%Q) ∧
  ∃ nm x y,
    auto_layout two_generations four_nodes = Some nm ∧
    nm !! 4 = Some (x, y) ∧ (x == 0)%Q ∧ (y == 400)%Q.
Proof.
  split_and!.
  - vm_compute. reflexivity.
  - eexists. split; [reflexivity | vm_compute; reflexivity].
  - eexists. split; [reflexivity | vm_compute; reflexivity].
  - assert (is_Some (auto_layout two_generations four_nodes)) as [nm Hnm].
    { unfold auto_layout.
      destruct (layout_levels_total two_generations) as [l ->]. by eexists. }
    exists nm.
    assert (∃ x y, nm !! 4 = Some (x, y) ∧ Qeq_bool x 0 = true
                   ∧ Qeq_bool y 400 = true) as (x & y & H4 & Hx & Hy).
    { assert (Some nm = auto_layout two_generations four_nodes) as Heq by done.
      clear Hnm. vm_compute in Heq. injection Heq as ->.
      eexists _, _. split; [vm_compute; reflexivity|]. by vm_compute. }
    exists x, y. split_and!; [done | done | by apply Qeq_bool_iff..].
Qed.

(** ** The loops, record by record *)

Lemma link_hijo_side : link_hijo = link Hijos.
Proof. reflexivity. Qed.
Lemma link_padre_side : link_padre = link Padres.
Proof. reflexivity. Qed.
Lemma unlink_hijo_side : unlink_hijo = unlink Hijos.
Proof. reflexivity. Qed.
Lemma unlink_padre_side : unlink_padre = unlink Padres.
Proof. reflexivity. Qed.
Lemma replace_padres_side : replace_padres = replace_rel Padres.
Proof. reflexivity. Qed.
Lemma replace_hijos_side : replace_hijos = replace_rel Hijos.
Proof. reflexivity. Qed.

Lemma ident_set_rel (s : side) (v : list Z) (q : Person) :
  ident (set_rel s v q) = ident q.
Proof. by destruct s. Qed.

Lemma rel_set_rel (s : side) (v : list Z) (q : Person) :
  rel s (set_rel s v q) = v.
Proof. by destruct s. Qed.

Lemma rel_set_flip (s : side) (v : list Z) (q : Person) :
  rel s (set_rel (flip s) v q) = rel s q.
Proof. by destruct s. Qed.

Lemma rel_flip_set (s : side) (v : list Z) (q : Person) :
  rel (flip s) (set_rel s v q) = rel (flip s) q.
Proof. by destruct s. Qed.

Lemma flip_flip (s : side) : flip (flip s) = s.
Proof. by destruct s. Qed.

Lemma unique_ids_elem (ppl : list Person) (p q : Person) :
  unique_ids ppl → p ∈ ppl → q ∈ ppl → ident p = ident q → p = q.
Proof.
  intros Hu (i & Hi)%list_elem_of_lookup (j & Hj)%list_elem_of_lookup Heq.
  assert (i = j); [|congruence].
  eapply (NoDup_lookup _ _ _ _ Hu); rewrite list_lookup_fmap.
  - by rewrite Hi.
  - rewrite Hj. simpl. by rewrite Heq.
Qed.

Lemma fmap_same (f : Person → Person) (ppl : list Person) :
  (∀ q, q ∈ ppl → f q = q) → f <$> ppl = ppl.
Proof.
  intros Hf. rewrite <-(list_fmap_id ppl) at 2.
  apply list_fmap_ext. intros i q Hq. apply Hf.
  by eapply list_elem_of_lookup_2.
Qed.

Lemma fmap_agree (f g : Person → Person) (ppl : list Person) :
  (∀ q, q ∈ ppl → f q = g q) → f <$> ppl = g <$> ppl.
Proof.
  intros Hf. apply list_fmap_ext. intros i q Hq. apply Hf.
  by eapply list_elem_of_lookup_2.
Qed.

(** With unique ids, writing through a reference touches the one record
    that carries the id. *)
Lemma alter_at_id (f : Person → Person) (ppl : list Person) (i : nat)
    (p : Person) :
  unique_ids ppl → ppl !! i = Some p →
  alter f i ppl = at_id (ident p) f <$> ppl.
Proof.
  intros Hu Hi. apply list_eq. intros j.
  rewrite list_lookup_fmap. destruct (decide (i = j)) as [<-|Hne].
  - rewrite list_lookup_alter_eq, Hi. simpl. unfold at_id.
    by rewrite decide_True.
  - rewrite list_lookup_alter_ne by done.
    destruct (ppl !! j) as [q|] eqn:Hj; [|done]. simpl. unfold at_id.
    rewrite decide_False; [done|]. intros Heq. apply Hne.
    eapply (NoDup_lookup _ _ _ _ Hu); rewrite list_lookup_fmap.
    + by rewrite Hi.
    + rewrite Hj. simpl. by rewrite Heq.
Qed.

Lemma unique_ids_fmap (f : Person → Person) (ppl : list Person) :
  (∀ q, ident (f q) = ident q) → unique_ids ppl → unique_ids (f <$> ppl).
Proof.
  intros Hf. unfold unique_ids. rewrite <-list_fmap_compose.
  by rewrite (list_fmap_ext (ident ∘ f) ident ppl) by (intros; apply Hf).
Qed.

Lemma ident_link_map s own targets q : ident (link_map s own targets q) = ident q.
Proof. unfold link_map. case_decide; [apply ident_set_rel | done]. Qed.

Lemma ident_unlink_map s own olds new q :
  ident (unlink_map s own olds new q) = ident q.
Proof. unfold unlink_map. case_decide; [apply ident_set_rel | done]. Qed.

Lemma ident_at_id id_ f q :
  (∀ q, ident (f q) = ident q) → ident (at_id id_ f q) = ident q.
Proof. unfold at_id. intros Hf. by case_decide. Qed.

Lemma ident_replace_map s own olds new q :
  ident (replace_map s own olds new q) = ident q.
Proof.
  unfold replace_map.
  rewrite ident_link_map, ident_at_id, ident_unlink_map;
    [done | apply ident_set_rel].
Qed.

Lemma link_step (s : side) (own : Z) (ppl : list Person) (k : Z) :
  unique_ids ppl → link s own ppl k = link_map s own [k] <$> ppl.
Proof.
  intros Hu. unfold link.
  destruct (get k ppl) as [[i p]|] eqn:Hget.
  - apply get_Some in Hget as (Hi & Hk & Hp).
    destruct (decide (own ∈ rel s p)) as [Hin|Hnin].
    + symmetry. apply fmap_same. intros q Hq. unfold link_map.
      rewrite decide_False; [done|]. intros [Hqk%list_elem_of_singleton Hn].
      assert (q = p) as -> by (apply (unique_ids_elem ppl); congruence).
      done.
    + rewrite (alter_at_id _ _ _ _ Hu Hi). apply fmap_agree.
      intros q Hq. unfold at_id, link_map. subst k.
      destruct (decide (ident q = ident p)) as [Heq|Hne].
      * assert (q = p) as -> by by apply (unique_ids_elem ppl).
        rewrite decide_True; [done|]. split; [set_solver | done].
      * rewrite decide_False; [done|]. set_solver.
  - symmetry. apply fmap_same. intros q Hq. unfold link_map.
    rewrite decide_False; [done|]. intros [Hqk%list_elem_of_singleton _].
    apply get_None in Hget. apply Hget. subst k.
    apply list_elem_of_fmap. by exists q.
Qed.

Lemma link_map_cons s own k targets q :
  link_map s own targets (link_map s own [k] q) = link_map s own (k :: targets) q.
Proof.
  unfold link_map at 2 3.
  destruct (decide (ident q ∈ [k] ∧ (own ∉ rel s q))) as [[Hk Hn]|Hno].
  - rewrite decide_True by set_solver. unfold link_map.
    rewrite decide_False; [done|]. rewrite rel_set_rel. set_solver.
  - unfold link_map. repeat case_decide; set_solver.
Qed.

Lemma foldl_link (s : side) (own : Z) (targets : list Z) (ppl : list Person) :
  unique_ids ppl →
  foldl (link s own) ppl targets = link_map s own targets <$> ppl.
Proof.
  revert ppl. induction targets as [|k targets IH]; intros ppl Hu; simpl.
  - symmetry. apply fmap_same. intros q _. unfold link_map.
    rewrite decide_False; [done | set_solver].
  - rewrite link_step by done. rewrite IH.
    + rewrite <-list_fmap_compose. apply fmap_agree. intros q _.
      apply link_map_cons.
    + apply unique_ids_fmap; [|done]. intros q. apply ident_link_map.
Qed.

Lemma unlink_step (s : side) (own : Z) (new : list Z) (ppl : list Person)
    (k : Z) :
  unique_ids ppl → unlink s own new ppl k = unlink_map s own [k] new <$> ppl.
Proof.
  intros Hu. unfold unlink.
  destruct (decide (k ∈ new)) as [Hk|Hk].
  { symmetry. apply fmap_same. intros q _. unfold unlink_map.
    rewrite decide_False; [done|].
    intros (->%list_elem_of_singleton & ? & _). done. }
  destruct (get k ppl) as [[i p]|] eqn:Hget.
  - apply get_Some in Hget as (Hi & Hpk & Hp).
    destruct (decide (own ∈ rel s p)) as [Hin|Hnin].
    + rewrite (alter_at_id _ _ _ _ Hu Hi). apply fmap_agree.
      intros q Hq. unfold at_id, unlink_map. subst k.
      destruct (decide (ident q = ident p)) as [Heq|Hne].
      * assert (q = p) as -> by by apply (unique_ids_elem ppl).
        rewrite decide_True; [done|]. split_and!; [set_solver | done..].
      * rewrite decide_False; [done|]. set_solver.
    + symmetry. apply fmap_same. intros q Hq. unfold unlink_map.
      rewrite decide_False; [done|].
      intros (Hqk%list_elem_of_singleton & _ & Hn).
      assert (q = p) as -> by (apply (unique_ids_elem ppl); congruence).
      done.
  - symmetry. apply fmap_same. intros q Hq. unfold unlink_map.
    rewrite decide_False; [done|].
    intros (Hqk%list_elem_of_singleton & _ & _).
    apply get_None in Hget. apply Hget. subst k.
    apply list_elem_of_fmap. by exists q.
Qed.

Lemma unlink_map_cons s own k olds new q :
  k ∉ olds →
  unlink_map s own olds new (unlink_map s own [k] new q) =
  unlink_map s own (k :: olds) new q.
Proof.
  intros Hk. unfold unlink_map at 2 3.
  destruct (decide (ident q ∈ [k] ∧ (ident q ∉ new) ∧ own ∈ rel s q))
    as [(Hq & Hn & Hin)|Hno].
  - rewrite decide_True by set_solver. unfold unlink_map.
    rewrite decide_False; [done|]. rewrite ident_set_rel. set_solver.
  - unfold unlink_map. repeat case_decide; set_solver.
Qed.

Lemma foldl_unlink (s : side) (own : Z) (olds new : list Z)
    (ppl : list Person) :
  unique_ids ppl → NoDup olds →
  foldl (unlink s own new) ppl olds = unlink_map s own olds new <$> ppl.
Proof.
  revert ppl. induction olds as [|k olds IH]; intros ppl Hu Hnd; simpl.
  - symmetry. apply fmap_same. intros q _. unfold unlink_map.
    rewrite decide_False; [done | set_solver].
  - apply NoDup_cons in Hnd as [Hk Hnd].
    rewrite unlink_step by done. rewrite IH; [|  |done].
    + rewrite <-list_fmap_compose. apply fmap_agree. intros q _.
      by apply unlink_map_cons.
    + apply unique_ids_fmap; [|done]. intros q. apply ident_unlink_map.
Qed.

Lemma replace_rel_map (s : side) (i : nat) (new : list Z)
    (ppl : list Person) (p : Person) :
  unique_ids ppl → ppl !! i = Some p → NoDup (rel s p) →
  replace_rel s i new ppl = replace_map s (ident p) (rel s p) new <$> ppl.
Proof.
  intros Hu Hi Hnd. unfold replace_rel. rewrite Hi.
  rewrite foldl_unlink by done.
  assert (unique_ids (unlink_map (flip s) (ident p) (rel s p) new <$> ppl))
    as Hu1.
  { apply unique_ids_fmap; [|done]. intros q. apply ident_unlink_map. }
  erewrite alter_at_id; [|done|by rewrite list_lookup_fmap, Hi].
  rewrite ident_unlink_map.
  rewrite foldl_link.
  - rewrite <-!list_fmap_compose. done.
  - apply unique_ids_fmap; [|done]. intros q.
    apply ident_at_id, ident_set_rel.
Qed.

Lemma reciprocal_recip (s : side) (ppl : list Person) :
  reciprocal ppl ↔ recip s ppl.
Proof.
  unfold reciprocal, recip. destruct s; simpl; [|done].
  split; intros H a b Ha Hb; symmetry; by apply H.
Qed.

Lemma dup_free_rel (ppl : list Person) :
  dup_free ppl ↔ ∀ s p, p ∈ ppl → NoDup (rel s p).
Proof.
  unfold dup_free. split.
  - intros H [] p Hp; by apply H.
  - intros H p Hp. split; [apply (H Padres) | apply (H Hijos)]; done.
Qed.

Lemma no_dangling_rel (ppl : list Person) :
  no_dangling ppl ↔ ∀ s p k, p ∈ ppl → k ∈ rel s p → k ∈ ident <$> ppl.
Proof.
  unfold no_dangling. split.
  - intros H s p k Hp Hk. apply get_is_Some, (H p k Hp).
    destruct s; [by left | by right].
  - intros H p k Hp Hk. apply get_is_Some.
    destruct Hk as [Hk|Hk]; [by apply (H Padres p) | by apply (H Hijos p)].
Qed.

(** *** One record under [link_map] *)

Lemma rel_link_map_other s own targets q :
  rel (flip s) (link_map s own targets q) = rel (flip s) q.
Proof. unfold link_map. case_decide; [apply rel_flip_set | done]. Qed.

Lemma elem_of_rel_link_map s own targets q k :
  k ∈ rel s (link_map s own targets q) ↔
  k ∈ rel s q ∨ (k = own ∧ ident q ∈ targets).
Proof.
  unfold link_map. case_decide as Hc.
  - rewrite rel_set_rel, elem_of_app, list_elem_of_singleton. tauto.
  - split; [by left|]. intros [?|[-> Hq]]; [done|].
    destruct (decide (own ∈ rel s q)); [done | tauto].
Qed.

Lemma NoDup_rel_link_map s own targets q :
  NoDup (rel s q) → NoDup (rel s (link_map s own targets q)).
Proof.
  unfold link_map. case_decide as Hc; [|done]. rewrite rel_set_rel.
  intros Hnd. apply NoDup_app. split_and!; [done| |apply NoDup_singleton].
  intros k Hk ->%list_elem_of_singleton. tauto.
Qed.

(** *** One record under [unlink_map] *)

Lemma rel_unlink_map_other s own olds new q :
  rel (flip s) (unlink_map s own olds new q) = rel (flip s) q.
Proof. unfold unlink_map. case_decide; [apply rel_flip_set | done]. Qed.

Lemma elem_of_rel_unlink_map_ne s own olds new q k :
  k ≠ own →
  k ∈ rel s (unlink_map s own olds new q) ↔ k ∈ rel s q.
Proof.
  intros Hne. unfold unlink_map. case_decide; [|done].
  rewrite rel_set_rel. by apply elem_of_remove_first_ne.
Qed.

Lemma elem_of_rel_unlink_map_own s own olds new q :
  NoDup (rel s q) →
  own ∈ rel s (unlink_map s own olds new q) ↔
  own ∈ rel s q ∧ ¬ (ident q ∈ olds ∧ ident q ∉ new).
Proof.
  intros Hnd. unfold unlink_map. case_decide as Hc.
  - rewrite rel_set_rel. apply (NoDup_remove_first own) in Hnd as [_ Hn].
    tauto.
  - tauto.
Qed.

Lemma NoDup_rel_unlink_map s own olds new q :
  NoDup (rel s q) → NoDup (rel s (unlink_map s own olds new q)).
Proof.
  unfold unlink_map. case_decide; [|done]. rewrite rel_set_rel.
  intros Hnd. by apply NoDup_remove_first.
Qed.

(** *** One record under [replace_map] *)

Lemma rel_at_id_set s own new q :
  rel s (at_id own (set_rel s new) q) =
  if decide (ident q = own) then new else rel s q.
Proof. unfold at_id. case_decide; [apply rel_set_rel | done]. Qed.

Lemma rel_at_id_set_other s own new q :
  rel (flip s) (at_id own (set_rel s new) q) = rel (flip s) q.
Proof. unfold at_id. case_decide; [apply rel_flip_set | done]. Qed.

Lemma rel_replace_map s own olds new q :
  rel s (replace_map s own olds new q) =
  if decide (ident q = own) then new else rel s q.
Proof.
  unfold replace_map.
  rewrite <-(flip_flip s) at 1. rewrite rel_link_map_other, flip_flip.
  rewrite rel_at_id_set, ident_unlink_map.
  case_decide; [done|].
  rewrite <-(flip_flip s) at 1. by rewrite rel_unlink_map_other, flip_flip.
Qed.

Lemma elem_of_rel_replace_map_ne s own olds new q k :
  k ≠ own →
  k ∈ rel (flip s) (replace_map s own olds new q) ↔ k ∈ rel (flip s) q.
Proof.
  intros Hne. unfold replace_map.
  rewrite elem_of_rel_link_map, rel_at_id_set_other.
  rewrite elem_of_rel_unlink_map_ne by done. tauto.
Qed.

Lemma elem_of_rel_replace_map_own s own olds new q :
  NoDup (rel (flip s) q) →
  own ∈ rel (flip s) (replace_map s own olds new q) ↔
  ident q ∈ new ∨
  (own ∈ rel (flip s) q ∧ ¬ (ident q ∈ olds ∧ ident q ∉ new)).
Proof.
  intros Hnd. unfold replace_map.
  rewrite elem_of_rel_link_map, rel_at_id_set_other.
  rewrite elem_of_rel_unlink_map_own by done.
  rewrite ident_at_id, ident_unlink_map by apply ident_set_rel. tauto.
Qed.

Lemma NoDup_rel_replace_map_other s own olds new q :
  NoDup (rel (flip s) q) →
  NoDup (rel (flip s) (replace_map s own olds new q)).
Proof.
  intros Hnd. unfold replace_map. apply NoDup_rel_link_map.
  rewrite rel_at_id_set_other. by apply NoDup_rel_unlink_map.
Qed.

Lemma dup_free_sides (ppl : list Person) :
  dup_free ppl ↔ ∀ s, dup_free_side s ppl.
Proof.
  rewrite dup_free_rel. unfold dup_free_side. naive_solver.
Qed.

(** ** Invariants under a record-by-record change *)

Section same_links.
Context (f : Person → Person) (Hf : same_links f).

Lemma same_links_idents (ppl : list Person) :
  ident <$> (f <$> ppl) = ident <$> ppl.
Proof.
  rewrite <-list_fmap_compose. apply list_fmap_ext.
  intros i q _. apply Hf.
Qed.

Lemma same_links_dup_free (s : side) (ppl : list Person) :
  dup_free_side s ppl → dup_free_side s (f <$> ppl).
Proof.
  intros H q' (q & -> & Hq)%list_elem_of_fmap.
  rewrite (proj2 (Hf q)). by apply H.
Qed.

Lemma same_links_reciprocal (ppl : list Person) :
  reciprocal ppl → reciprocal (f <$> ppl).
Proof.
  intros H a' b' (a & -> & Ha)%list_elem_of_fmap
    (b & -> & Hb)%list_elem_of_fmap.
  rewrite !(proj1 (Hf _)).
  rewrite (proj2 (Hf a) Hijos : hijos_of (f a) = hijos_of a).
  rewrite (proj2 (Hf b) Padres : padres_of (f b) = padres_of b).
  by apply H.
Qed.

Lemma same_links_no_dangling (ppl : list Person) :
  no_dangling ppl → no_dangling (f <$> ppl).
Proof.
  rewrite !no_dangling_rel. intros H s q' k (q & -> & Hq)%list_elem_of_fmap.
  rewrite (proj2 (Hf q)), same_links_idents. by apply H.
Qed.
End same_links.

Lemma same_links_scalars (id_ : Z) (kw : kwargs) :
  same_links (at_id id_ (update_scalars kw)).
Proof.
  intros q. unfold at_id. case_decide; [|done]. split.
  - apply update_scalars_ident.
  - intros []; unfold rel, padres_of, hijos_of;
      by rewrite ?update_scalars_padres, ?update_scalars_hijos.
Qed.

(** ** Replacing one list of one record *)

Section replace.
Context (s : side) (i : nat) (new : list Z) (ppl : list Person) (p : Person).
Hypothesis Hu : unique_ids ppl.
Hypothesis Hi : ppl !! i = Some p.
Hypothesis Hnd : NoDup (rel s p).

Lemma replace_rel_unique : unique_ids (replace_rel s i new ppl).
Proof.
  rewrite (replace_rel_map _ _ _ _ p) by done.
  apply unique_ids_fmap; [|done]. intros q. apply ident_replace_map.
Qed.

Lemma replace_rel_idents :
  ident <$> replace_rel s i new ppl = ident <$> ppl.
Proof.
  rewrite (replace_rel_map _ _ _ _ p) by done.
  rewrite <-list_fmap_compose. apply list_fmap_ext.
  intros j q _. apply ident_replace_map.
Qed.

Lemma replace_rel_dup_free_other :
  dup_free_side (flip s) ppl →
  dup_free_side (flip s) (replace_rel s i new ppl).
Proof.
  rewrite (replace_rel_map _ _ _ _ p) by done.
  intros H q' (q & -> & Hq)%list_elem_of_fmap.
  apply NoDup_rel_replace_map_other. by apply H.
Qed.

Lemma replace_rel_dup_free_same :
  dup_free_side s ppl → NoDup new →
  dup_free_side s (replace_rel s i new ppl).
Proof.
  rewrite (replace_rel_map _ _ _ _ p) by done.
  intros H Hnew q' (q & -> & Hq)%list_elem_of_fmap.
  rewrite rel_replace_map. case_decide; [done | by apply H].
Qed.

Lemma replace_rel_no_dangling :
  no_dangling ppl → known ppl new →
  no_dangling (replace_rel s i new ppl).
Proof.
  rewrite !no_dangling_rel, replace_rel_idents.
  rewrite (replace_rel_map _ _ _ _ p) by done.
  intros H Hnew s0 q' k (q & -> & Hq)%list_elem_of_fmap.
  assert (s0 = s ∨ s0 = flip s) as [->| ->] by (destruct s0, s; auto).
  - rewrite rel_replace_map. case_decide; [apply Hnew | by apply H].
  - destruct (decide (k = ident p)) as [->|Hne].
    + intros _. apply list_elem_of_fmap. exists p.
      eauto using list_elem_of_lookup_2.
    + rewrite elem_of_rel_replace_map_ne by done. by apply H.
Qed.

Lemma replace_rel_reciprocal :
  reciprocal ppl → dup_free_side (flip s) ppl →
  reciprocal (replace_rel s i new ppl).
Proof.
  rewrite !(reciprocal_recip s).
  rewrite (replace_rel_map _ _ _ _ p) by done.
  intros Hr Hdf a' b' (a & -> & Ha)%list_elem_of_fmap
    (b & -> & Hb)%list_elem_of_fmap.
  rewrite !ident_replace_map, rel_replace_map.
  assert (p ∈ ppl) as Hp by eauto using list_elem_of_lookup_2.
  destruct (decide (ident a = ident p)) as [Heq|Hne].
  - rewrite Heq, elem_of_rel_replace_map_own by by apply Hdf.
    pose proof (Hr p b Hp Hb) as Hpb.
    destruct (decide (ident b ∈ new)); tauto.
  - rewrite elem_of_rel_replace_map_ne by done. by apply Hr.
Qed.
End replace.

Lemma known_idents (ppl ppl' : list Person) (l : list Z) :
  ident <$> ppl' = ident <$> ppl → known ppl l → known ppl' l.
Proof. unfold known. by intros ->. Qed.

Lemma lookup_idents (ppl ppl' : list Person) (i : nat) (p : Person) :
  ident <$> ppl' = ident <$> ppl → ppl !! i = Some p →
  ∃ p', ppl' !! i = Some p' ∧ ident p' = ident p.
Proof.
  intros Hid Hi.
  assert ((ident <$> ppl') !! i = Some (ident p)) as Hl
    by by rewrite Hid, list_lookup_fmap, Hi.
  rewrite list_lookup_fmap in Hl.
  destruct (ppl' !! i) as [p'|]; [|done]. exists p'.
  split; [done | by injection Hl].
Qed.

Section opt_replace.
Context (s : side) (i : nat) (o : option (list Z)) (ppl : list Person)
        (p : Person).
Hypothesis Hu : unique_ids ppl.
Hypothesis Hi : ppl !! i = Some p.
Hypothesis Hnd : dup_free_side s ppl.

Lemma Hnd_p : NoDup (rel s p).
Proof. apply Hnd. eauto using list_elem_of_lookup_2. Qed.

Lemma opt_replace_unique : unique_ids (opt_replace s i o ppl).
Proof.
  destruct o; simpl; [|done]. eapply replace_rel_unique; eauto using Hnd_p.
Qed.

Lemma opt_replace_idents :
  ident <$> opt_replace s i o ppl = ident <$> ppl.
Proof.
  destruct o; simpl; [|done]. eapply replace_rel_idents; eauto using Hnd_p.
Qed.

Lemma opt_replace_dup_free_other :
  dup_free_side (flip s) ppl → dup_free_side (flip s) (opt_replace s i o ppl).
Proof.
  destruct o; simpl; [|done].
  eapply replace_rel_dup_free_other; eauto using Hnd_p.
Qed.

Lemma opt_replace_dup_free_same :
  (∀ new, o = Some new → NoDup new) →
  dup_free_side s (opt_replace s i o ppl).
Proof.
  destruct o; simpl; [|done]. intros Hnew.
  eapply replace_rel_dup_free_same; eauto using Hnd_p.
Qed.

Lemma opt_replace_no_dangling :
  no_dangling ppl → (∀ new, o = Some new → known ppl new) →
  no_dangling (opt_replace s i o ppl).
Proof.
  destruct o; simpl; [|done]. intros Hno Hnew.
  eapply replace_rel_no_dangling; eauto using Hnd_p.
Qed.

Lemma opt_replace_reciprocal :
  reciprocal ppl → dup_free_side (flip s) ppl →
  reciprocal (opt_replace s i o ppl).
Proof.
  destruct o; simpl; [|done]. intros Hr Hdf.
  eapply replace_rel_reciprocal; eauto using Hnd_p.
Qed.
End opt_replace.

(** ** update_person and the invariants *)

Lemma updated_stages (i : nat) (kw : kwargs) (ppl : list Person) :
  updated i kw ppl =
  opt_replace Hijos i (supplied (kw_hijos kw))
    (opt_replace Padres i (supplied (kw_padres kw))
       (alter (update_scalars kw) i ppl)).
Proof. reflexivity. Qed.

Section updated.
Context (id_ : Z) (i : nat) (p : Person) (kw : kwargs) (ppl : list Person).
Hypothesis Hu : unique_ids ppl.
Hypothesis Hget : get id_ ppl = Some (i, p).
Hypothesis Hdf : dup_free ppl.

Abbreviation ppl1 := (alter (update_scalars kw) i ppl).
Abbreviation ppl2 := (opt_replace Padres i (supplied (kw_padres kw)) ppl1).

Lemma scalars_stage :
  ppl1 = at_id (ident p) (update_scalars kw) <$> ppl.
Proof. apply alter_at_id; [done | apply (get_Some _ _ _ _ Hget)]. Qed.

Lemma scalars_stage_facts :
  unique_ids ppl1 ∧ ident <$> ppl1 = ident <$> ppl ∧
  (∀ s, dup_free_side s ppl1) ∧
  (no_dangling ppl → no_dangling ppl1) ∧
  (reciprocal ppl → reciprocal ppl1).
Proof.
  rewrite scalars_stage.
  pose proof (same_links_scalars (ident p) kw) as Hs.
  split_and!.
  - apply unique_ids_fmap; [|done]. intros q. apply Hs.
  - by apply same_links_idents.
  - intros s. apply same_links_dup_free; [done|]. by apply dup_free_sides.
  - by apply same_links_no_dangling.
  - by apply same_links_reciprocal.
Qed.

Lemma padres_stage_facts :
  unique_ids ppl2 ∧ ident <$> ppl2 = ident <$> ppl ∧
  dup_free_side Hijos ppl2 ∧
  (no_dangling ppl →
   (∀ new, supplied (kw_padres kw) = Some new → known ppl new) →
   no_dangling ppl2) ∧
  ((∀ new, supplied (kw_padres kw) = Some new → NoDup new) →
   dup_free_side Padres ppl2 ∧ (reciprocal ppl → reciprocal ppl2)).
Proof.
  destruct scalars_stage_facts as (Hu1 & Hid1 & Hdf1 & Hno1 & Hr1).
  pose proof (get_Some _ _ _ _ Hget) as (Hi & _ & _).
  destruct (lookup_idents ppl ppl1 i p Hid1 Hi) as (p1 & Hi1 & _).
  split_and!.
  - by eapply opt_replace_unique.
  - by erewrite opt_replace_idents.
  - by eapply (opt_replace_dup_free_other Padres).
  - intros Hno Hk. eapply opt_replace_no_dangling; eauto.
    intros new Hnew. eapply known_idents; eauto.
  - intros Hnew. split.
    + by eapply (opt_replace_dup_free_same Padres).
    + intros Hr. eapply opt_replace_reciprocal; eauto.
Qed.

Lemma updated_unique : unique_ids (updated i kw ppl).
Proof.
  destruct padres_stage_facts as (Hu2 & Hid2 & Hdf2 & _).
  pose proof (get_Some _ _ _ _ Hget) as (Hi & _ & _).
  destruct (lookup_idents ppl ppl2 i p Hid2 Hi) as (p2 & Hi2 & _).
  rewrite updated_stages. by eapply opt_replace_unique.
Qed.

Lemma updated_no_dangling :
  no_dangling ppl →
  (∀ new, supplied (kw_padres kw) = Some new → known ppl new) →
  (∀ new, supplied (kw_hijos kw) = Some new → known ppl new) →
  no_dangling (updated i kw ppl).
Proof.
  intros Hno Hkp Hkh.
  destruct padres_stage_facts as (Hu2 & Hid2 & Hdf2 & Hno2 & _).
  pose proof (get_Some _ _ _ _ Hget) as (Hi & _ & _).
  destruct (lookup_idents ppl ppl2 i p Hid2 Hi) as (p2 & Hi2 & _).
  rewrite updated_stages. eapply opt_replace_no_dangling; eauto.
  intros new Hnew. eapply known_idents; eauto.
Qed.

Lemma updated_dup_free_reciprocal :
  (∀ new, supplied (kw_padres kw) = Some new → NoDup new) →
  (∀ new, supplied (kw_hijos kw) = Some new → NoDup new) →
  dup_free (updated i kw ppl) ∧
  (reciprocal ppl → reciprocal (updated i kw ppl)).
Proof.
  intros Hnp Hnh.
  destruct padres_stage_facts as (Hu2 & Hid2 & Hdf2 & _ & Hrest).
  destruct (Hrest Hnp) as [Hdfp Hr2].
  pose proof (get_Some _ _ _ _ Hget) as (Hi & _ & _).
  destruct (lookup_idents ppl ppl2 i p Hid2 Hi) as (p2 & Hi2 & _).
  rewrite updated_stages. split.
  - apply dup_free_sides. intros [].
    + by eapply (opt_replace_dup_free_other Hijos).
    + by eapply (opt_replace_dup_free_same Hijos).
  - intros Hr. eapply opt_replace_reciprocal; eauto.
Qed.
End updated.

(** ** add_person and the invariants *)

Lemma elem_of_snoc (q person : Person) (ppl : list Person) :
  q ∈ ppl ++ [person] ↔ q ∈ ppl ∨ q = person.
Proof. by rewrite elem_of_app, list_elem_of_singleton. Qed.

Section appended.
Context (person : Person) (ppl : list Person).
Hypothesis Hu : unique_ids ppl.
Hypothesis Hfresh : ident person ∉ ident <$> ppl.

Abbreviation n := (ident person).
Abbreviation own_hijos :=
(hijos_of (link_map Hijos n (padres_of person) person)).
Abbreviation linked q :=
(link_map Padres n own_hijos (link_map Hijos n (padres_of person) q)).

Lemma appended_unique_before : unique_ids (ppl ++ [person]).
Proof.
unfold unique_ids. rewrite fmap_app. apply NoDup_app.
split_and!; [done | | apply NoDup_singleton].
intros k Hk ->%list_elem_of_singleton. done.
Qed.

Lemma append_linked_map :
append_linked person ppl = (λ q, linked q) <$> (ppl ++ [person]).
Proof.
unfold append_linked. rewrite link_hijo_side, link_padre_side.
rewrite (foldl_link Hijos) by apply appended_unique_before.
rewrite list_lookup_fmap, list_lookup_middle by done. simpl.
rewrite (foldl_link Padres).
- by rewrite <-list_fmap_compose.
- apply unique_ids_fmap; [|apply appended_unique_before].
  intros q. apply ident_link_map.
Qed.

Lemma ident_linked (q : Person) : ident (linked q) = ident q.
Proof. by rewrite !ident_link_map. Qed.

Lemma elem_of_own_hijos (k : Z) :
k ∈ own_hijos ↔ k ∈ hijos_of person ∨ (k = n ∧ n ∈ padres_of person).
Proof. apply (elem_of_rel_link_map Hijos). Qed.

Lemma elem_of_hijos_linked (q : Person) (k : Z) :
k ∈ hijos_of (linked q) ↔
k ∈ hijos_of q ∨ (k = n ∧ ident q ∈ padres_of person).
Proof.
rewrite (rel_link_map_other Padres : ∀ own t q0,
           hijos_of (link_map Padres own t q0) = hijos_of q0).
apply (elem_of_rel_link_map Hijos).
Qed.

Lemma elem_of_padres_linked (q : Person) (k : Z) :
k ∈ padres_of (linked q) ↔
k ∈ padres_of q ∨ (k = n ∧ ident q ∈ own_hijos).
Proof.
rewrite (elem_of_rel_link_map Padres : ∀ own t q0 k0,
           k0 ∈ padres_of (link_map Padres own t q0) ↔ _).
rewrite ident_link_map.
by rewrite (rel_link_map_other Hijos : ∀ own t q0,
              padres_of (link_map Hijos own t q0) = padres_of q0).
Qed.

Lemma NoDup_linked (s : side) (q : Person) :
NoDup (rel s q) → NoDup (rel s (linked q)).
Proof.
intros Hnd. destruct s.
- apply (NoDup_rel_link_map Padres).
  by rewrite (rel_link_map_other Hijos : ∀ own t q0,
                rel Padres (link_map Hijos own t q0) = rel Padres q0).
- rewrite (rel_link_map_other Padres : ∀ own t q0,
             rel Hijos (link_map Padres own t q0) = rel Hijos q0).
  by apply (NoDup_rel_link_map Hijos).
Qed.

Lemma appended_unique : unique_ids (append_linked person ppl).
Proof.
rewrite append_linked_map.
apply unique_ids_fmap; [apply ident_linked | apply appended_unique_before].
Qed.

Lemma appended_dup_free :
dup_free ppl → NoDup (padres_of person) → NoDup (hijos_of person) →
dup_free (append_linked person ppl).
Proof.
rewrite append_linked_map. intros Hdf Hp Hh.
apply dup_free_rel. intros s q' (q & -> & Hq)%list_elem_of_fmap.
apply NoDup_linked.
apply elem_of_snoc in Hq as [Hq| ->].
- by apply (proj1 (dup_free_rel ppl)).
- by destruct s.
Qed.

Lemma appended_no_dangling :
no_dangling ppl →
(∀ k, k ∈ padres_of person ∨ k ∈ hijos_of person →
      k = n ∨ k ∈ ident <$> ppl) →
no_dangling (append_linked person ppl).
Proof.
rewrite !no_dangling_rel, append_linked_idents. intros Hno Hargs.
rewrite append_linked_map.
assert (∀ k, k = n ∨ k ∈ ident <$> ppl → k ∈ (ident <$> ppl) ++ [n])
  as Hin by set_solver.
intros s q' k (q & -> & Hq)%list_elem_of_fmap Hk. apply Hin.
assert (k = n ∨ k ∈ rel s q) as [->|Hk'].
{ destruct s.
  - apply elem_of_padres_linked in Hk. tauto.
  - apply elem_of_hijos_linked in Hk. tauto. }
{ by left. }
apply elem_of_snoc in Hq as [Hq| ->].
- right. by eapply Hno.
- apply Hargs. destruct s; [by left | by right].
Qed.

Lemma appended_reciprocal :
reciprocal ppl → unreferenced n ppl →
reciprocal (append_linked person ppl).
Proof.
rewrite append_linked_map. intros Hr Hun.
assert (∀ q, q ∈ ppl → ident q ≠ n) as Hne.
{ intros q Hq Heq. apply Hfresh. rewrite <-Heq.
  apply list_elem_of_fmap. by exists q. }
intros a' b' (a & -> & Ha)%list_elem_of_fmap
  (b & -> & Hb)%list_elem_of_fmap.
rewrite !ident_linked, elem_of_hijos_linked, elem_of_padres_linked,
  elem_of_own_hijos.
apply elem_of_snoc in Ha as [Ha| ->];
  apply elem_of_snoc in Hb as [Hb| ->].
- pose proof (Hr a b Ha Hb). pose proof (Hne a Ha). pose proof (Hne b Hb).
  tauto.
- pose proof (Hne a Ha). pose proof (Hun Hijos a Ha). simpl in *. tauto.
- pose proof (Hne b Hb). pose proof (Hun Padres b Hb). simpl in *. tauto.
- tauto.
Qed.
End appended.

Lemma no_dangling_unreferenced (k : Z) (ppl : list Person) :
  no_dangling ppl → k ∉ ident <$> ppl → unreferenced k ppl.
Proof.
  rewrite no_dangling_rel. intros Hno Hk s q Hq Hin.
  apply Hk. by eapply Hno.
Qed.

(** ** delete_person and the invariants *)

Lemma rel_drop_references (s : side) (id_ : Z) (q : Person) :
  rel s (drop_references id_ q) = remove_first id_ (rel s q).
Proof. destruct s; apply drop_references_spec. Qed.

Lemma ident_drop_references (id_ : Z) (q : Person) :
  ident (drop_references id_ q) = ident q.
Proof. apply drop_references_spec. Qed.

Lemma deleted_idents (id_ : Z) (ppl : list Person) :
  ident <$> deleted id_ ppl = filter (λ k, k ≠ id_) (ident <$> ppl).
Proof.
  unfold deleted. induction ppl as [|q ppl IH]; [done|].
  rewrite !fmap_cons, !filter_cons, ident_drop_references.
  case_decide; [rewrite fmap_cons, ident_drop_references|]; by rewrite IH.
Qed.

Lemma deleted_unique (id_ : Z) (ppl : list Person) :
  unique_ids ppl → unique_ids (deleted id_ ppl).
Proof.
  unfold unique_ids. rewrite deleted_idents. apply NoDup_filter.
Qed.

Lemma deleted_dup_free (id_ : Z) (ppl : list Person) :
  dup_free ppl → dup_free (deleted id_ ppl).
Proof.
  rewrite !dup_free_rel.
  intros Hdf s q' (q & Hq & _ & ->)%elem_of_deleted.
  rewrite rel_drop_references. by apply NoDup_remove_first, Hdf.
Qed.

Lemma deleted_no_dangling (id_ : Z) (ppl : list Person) :
  dup_free ppl → no_dangling ppl → no_dangling (deleted id_ ppl).
Proof.
  rewrite dup_free_rel, !no_dangling_rel, deleted_idents.
  intros Hdf Hno s q' k (q & Hq & _ & ->)%elem_of_deleted.
  rewrite rel_drop_references. intros Hk.
  apply list_elem_of_filter. split.
  - intros ->. by apply (NoDup_remove_first id_ (rel s q)) in Hk; [|apply Hdf].
  - apply elem_of_remove_first in Hk. by eapply Hno.
Qed.

Lemma deleted_reciprocal (id_ : Z) (ppl : list Person) :
  reciprocal ppl → reciprocal (deleted id_ ppl).
Proof.
  intros Hr a' b' (a & Ha & Hna & ->)%elem_of_deleted
    (b & Hb & Hnb & ->)%elem_of_deleted.
  rewrite !ident_drop_references.
  rewrite (rel_drop_references Hijos id_ a : hijos_of _ = _).
  rewrite (rel_drop_references Padres id_ b : padres_of _ = _).
  rewrite !elem_of_remove_first_ne by done. by apply Hr.
Qed.

(** ** Calls *)

Lemma people_exec (o : op) (m : FamilyModel) :
  people (exec o m) =
  match o with
  | Add name dob description parents children =>
      append_linked (new_person (max_id (people m) + 1) name dob description
                                parents children) (people m)
  | Update id_ kw =>
      match get id_ (people m) with
      | Some (i, _) => updated i kw (people m)
      | None => people m
      end
  | Delete id_ =>
      match get id_ (people m) with
      | Some _ => deleted id_ (people m)
      | None => people m
      end
  end.
Proof.
  destruct o as [name dob description parents children|id_ kw|id_]; simpl.
  - rewrite add_person_unfold. eapply people_commit, surjective_pairing.
  - rewrite update_person_unfold.
    destruct (get id_ (people m)) as [[i p]|]; [|done].
    eapply people_commit, surjective_pairing.
  - rewrite delete_person_unfold.
    destruct (get id_ (people m)) as [[i p]|]; [|done].
    eapply people_commit, surjective_pairing.
Qed.

Lemma exec_unique_ids (o : op) (m : FamilyModel) :
  unique_ids (people m) → dup_free (people m) →
  unique_ids (people (exec o m)).
Proof.
  intros Hu Hdf. rewrite people_exec.
  destruct o as [name dob description parents children|id_ kw|id_].
  - apply appended_unique; [done | apply max_id_fresh].
  - destruct (get id_ (people m)) as [[i p]|] eqn:Hget; [|done].
    by eapply updated_unique.
  - destruct (get id_ (people m)); [|done]. by apply deleted_unique.
Qed.

Lemma exec_no_dangling (o : op) (m : FamilyModel) :
  unique_ids (people m) → dup_free (people m) → no_dangling (people m) →
  known_args o (people m) →
  no_dangling (people (exec o m)).
Proof.
  intros Hu Hdf Hno Hk. rewrite people_exec.
  destruct o as [name dob description parents children|id_ kw|id_].
  - apply appended_no_dangling; [done | apply max_id_fresh | done | done].
  - destruct (get id_ (people m)) as [[i p]|] eqn:Hget; [|done].
    destruct Hk as [Hkp Hkh]. by eapply updated_no_dangling.
  - destruct (get id_ (people m)); [|done]. by apply deleted_no_dangling.
Qed.

Lemma exec_wf (o : op) (m : FamilyModel) :
  wf (people m) → known_args o (people m) → dup_free_args o →
  wf (people (exec o m)).
Proof.
  intros (Hu & Hdf & Hno & Hr) Hk Hd.
  split_and!; [by apply exec_unique_ids | | by apply exec_no_dangling |].
  - rewrite people_exec.
    destruct o as [name dob description parents children|id_ kw|id_].
    + destruct Hd as [Hdp Hdh].
      apply appended_dup_free; [done | apply max_id_fresh | done..].
    + destruct (get id_ (people m)) as [[i p]|] eqn:Hget; [|done].
      destruct Hd as [Hdp Hdh].
      by eapply updated_dup_free_reciprocal.
    + destruct (get id_ (people m)); [|done]. by apply deleted_dup_free.
  - rewrite people_exec.
    destruct o as [name dob description parents children|id_ kw|id_].
    + apply appended_reciprocal; [done | apply max_id_fresh | done |].
      apply no_dangling_unreferenced; [done | apply max_id_fresh].
    + destruct (get id_ (people m)) as [[i p]|] eqn:Hget; [|done].
      destruct Hd as [Hdp Hdh].
      by eapply updated_dup_free_reciprocal.
    + destruct (get id_ (people m)); [|done]. by apply deleted_reciprocal.
Qed.

Lemma run_wf (done rest : list op) (m : FamilyModel) :
  wf (people m) → valid_calls (done ++ rest) m →
  wf (people (run done m)).
Proof.
  revert m. induction done as [|o done IH]; intros m Hwf Hv; [done|].
  destruct Hv as (Hk & Hd & Hv). simpl. apply IH; [|done].
  by apply exec_wf.
Qed.

Lemma wf_nil : wf [].
Proof.
  split_and!.
  - constructor.
  - apply dup_free_nil.
  - by intros p k ?%elem_of_nil.
  - by intros a b ?%elem_of_nil.
Qed.

Ltac closed_list_goal :=
  first
    [ apply NoDup_nil_2
    | apply (bool_decide_unpack _); vm_compute; exact I
    | let k := fresh "k" in let Hk := fresh "Hk" in
      intros k Hk; vm_compute in Hk |- *; set_solver ].

Lemma sample_calls_valid : valid_calls sample_calls empty_model.
Proof.
  unfold sample_calls. simpl. repeat split.
  all: try (intros new [= <-]).
  all: rewrite ?people_exec; simpl.
  all: closed_list_goal.
Qed.

(** ** No dangling reference *)

(** *** Which ids are listed *)

Lemma no_dangling_listed (ppl : list Person) :
  no_dangling ppl ↔ listed (λ k, k ∈ ident <$> ppl) ppl.
Proof. apply no_dangling_rel. Qed.

Section listed.
Context (K : Z → Prop).

Lemma listed_alter (f : Person → Person) (i : nat) (ppl : list Person) :
  listed K ppl →
  (∀ q s k, k ∈ rel s (f q) → k ∈ rel s q ∨ K k) →
  listed K (alter f i ppl).
Proof.
  intros Hl Hf s p k (j & Hj)%list_elem_of_lookup_1 Hk.
  destruct (decide (j = i)) as [->|Hne].
  - rewrite list_lookup_alter_eq in Hj.
    destruct (ppl !! i) as [q|] eqn:Hi; [|done]. injection Hj as <-.
    destruct (Hf _ _ _ Hk) as [Hq|]; [|done].
    eapply Hl; [|done]. by eapply list_elem_of_lookup_2.
  - rewrite list_lookup_alter_ne in Hj by done.
    eapply Hl; [|done]. by eapply list_elem_of_lookup_2.
Qed.

Lemma listed_link (s : side) (own : Z) (ppl : list Person) (k : Z) :
  K own → listed K ppl → listed K (link s own ppl k).
Proof.
  intros Hown Hl. unfold link.
  destruct (get k ppl) as [[j q]|]; [|done]. case_decide; [done|].
  apply listed_alter; [done|]. intros q' s' x.
  assert (s' = s ∨ s' = flip s) as [->| ->] by (destruct s', s; auto).
  - rewrite rel_set_rel, elem_of_app, list_elem_of_singleton.
    intros [?| ->]; auto.
  - rewrite rel_flip_set. auto.
Qed.

Lemma listed_unlink (s : side) (own : Z) (new : list Z) (ppl : list Person)
    (k : Z) :
  listed K ppl → listed K (unlink s own new ppl k).
Proof.
  intros Hl. unfold unlink. case_decide; [done|].
  destruct (get k ppl) as [[j q]|]; [|done]. case_decide; [|done].
  apply listed_alter; [done|]. intros q' s' x.
  assert (s' = s ∨ s' = flip s) as [->| ->] by (destruct s', s; auto).
  - rewrite rel_set_rel. intros ?%elem_of_remove_first. auto.
  - rewrite rel_flip_set. auto.
Qed.

Lemma listed_replace_rel (s : side) (i : nat) (new : list Z)
    (ppl : list Person) :
  listed K ppl → (∀ k, k ∈ new → K k) →
  (∀ p, ppl !! i = Some p → K (ident p)) →
  listed K (replace_rel s i new ppl).
Proof.
  intros Hl Hnew Hown. unfold replace_rel.
  destruct (ppl !! i) as [p|]; [|done]. specialize (Hown p eq_refl).
  apply foldl_preserves; [intros; by apply listed_link|].
  apply listed_alter.
  - apply foldl_preserves; [intros; by apply listed_unlink | done].
  - intros q s' x.
    assert (s' = s ∨ s' = flip s) as [->| ->] by (destruct s', s; auto).
    + rewrite rel_set_rel. auto.
    + rewrite rel_flip_set. auto.
Qed.

Lemma listed_updated (i : nat) (kw : kwargs) (ppl : list Person) :
  listed K ppl →
  (∀ new, supplied (kw_padres kw) = Some new → ∀ k, k ∈ new → K k) →
  (∀ new, supplied (kw_hijos kw) = Some new → ∀ k, k ∈ new → K k) →
  (∀ p, ppl !! i = Some p → K (ident p)) →
  listed K (updated i kw ppl).
Proof.
  intros Hl Hpa Hhi Hown. rewrite updated_stages.
  set (ppl1 := alter (update_scalars kw) i ppl).
  assert (listed K ppl1) as Hl1.
  { apply listed_alter; [done|]. intros q s x.
    destruct s; unfold rel, padres_of, hijos_of;
      rewrite ?update_scalars_padres, ?update_scalars_hijos; auto. }
  assert (∀ ppl', ident <$> ppl' = ident <$> ppl →
            ∀ p, ppl' !! i = Some p → K (ident p)) as Hown'.
  { intros ppl' Hids p' Hp'.
    assert ((ident <$> ppl) !! i = Some (ident p')) as Hi
      by (by rewrite <-Hids, list_lookup_fmap, Hp').
    rewrite list_lookup_fmap in Hi.
    destruct (ppl !! i) as [p|] eqn:Hp; [|done].
    injection Hi as <-. by apply Hown. }
  assert (ident <$> ppl1 = ident <$> ppl) as Hids1
    by (apply alter_proj, update_scalars_ident).
  set (ppl2 := opt_replace Padres i (supplied (kw_padres kw)) ppl1).
  assert (listed K ppl2 ∧ ident <$> ppl2 = ident <$> ppl) as [Hl2 Hids2].
  { unfold ppl2. destruct (supplied (kw_padres kw)) as [new|]; [|done].
    simpl. split.
    - apply listed_replace_rel; [done | by apply Hpa | by apply Hown'].
    - rewrite <-replace_padres_side, (replace_padres_proj ident); [done|].
      apply ident_blind. }
  destruct (supplied (kw_hijos kw)) as [new|]; [|done]. simpl.
  apply listed_replace_rel; [done | by apply Hhi | by apply Hown'].
Qed.

Lemma listed_append_linked (person : Person) (ppl : list Person) :
  listed K ppl → K (ident person) →
  (∀ s k, k ∈ rel s person → K k) →
  listed K (append_linked person ppl).
Proof.
  intros Hl Hown Hargs. unfold append_linked.
  rewrite link_hijo_side, link_padre_side.
  apply foldl_preserves; [intros; by apply listed_link|].
  apply foldl_preserves; [intros; by apply listed_link|].
  intros s p k [Hp| ->%list_elem_of_singleton]%elem_of_app Hk.
  - by eapply Hl.
  - by eapply Hargs.
Qed.
End listed.

(** C2, as the code has it.  On a store without dangling reference, a call
    of [add_person] or [update_person] whose relationship ids are ids of
    the store (for [add_person] the id being allocated counts as one), and
    a call of [delete_person] on a store whose lists have no repetition,
    leave no dangling reference: [get] finds a record for every id
    listed. *)
Theorem no_dangling_after_validated_call (o : op) (m : FamilyModel) :
  no_dangling (people m) → known_args o (people m) →
  (∀ id_, o = Delete id_ → dup_free (people m)) →
  ∀ p k, p ∈ people (exec o m) → k ∈ padres_of p ∨ k ∈ hijos_of p →
         is_Some (get k (people (exec o m))).
Proof.
  intros Hno Hk Hdf. change (no_dangling (people (exec o m))).
  rewrite people_exec.
  destruct o as [name dob description parents children|id_ kw|id_].
  - apply no_dangling_listed. rewrite append_linked_idents. simpl.
    apply no_dangling_listed in Hno.
    apply listed_append_linked.
    + intros s p k Hp Hin. apply elem_of_app. left. by eapply Hno.
    + set_solver.
    + intros s k Hin. simpl in Hk.
      destruct (Hk k) as [->|?]; [|set_solver..].
      destruct s; [by left | by right].
  - destruct (get id_ (people m)) as [[i p]|] eqn:Hget; [|done].
    destruct Hk as [Hkp Hkh].
    apply no_dangling_listed. rewrite updated_idents.
    apply no_dangling_listed in Hno.
    apply listed_updated; [done | by apply Hkp | by apply Hkh |].
    intros q Hq. apply list_elem_of_fmap. exists q.
    eauto using list_elem_of_lookup_2.
  - destruct (get id_ (people m)); [|done].
    apply deleted_no_dangling; [by eapply Hdf | done].
Qed.

Lemma no_dangling_after_validated_call_witness :
  let m := mkModel [bare 1 [] []] None true in
  let o := Add "Bea" "" "" (Some [1; 2]) (Some [2]) in
  no_dangling (people (exec o m)).
Proof.
  intros m o. refine (no_dangling_after_validated_call o m _ _ _).
  - intros p k Hp Hk. vm_compute in Hp.
    apply list_elem_of_singleton in Hp as ->. vm_compute in Hk. set_solver.
  - intros k Hk. vm_compute in Hk |- *. set_solver.
  - intros id_ [=].
Defined.
(** C2, as stated, fails in two ways.  [add_person] keeps an id that no
    record carries in the list of the new record.  And [delete_person]
    leaves the second occurrence of the deleted id in a list that had it
    twice. *)
Lemma dangling_reference_left :
  (let m1 := exec (Add "Ana" "" "" (Some [5]) None) empty_model in
   no_dangling (people empty_model) ∧ ¬ no_dangling (people m1)) ∧
  (let m1 := exec (Add "Ana" "" "" None None) empty_model in
   let m2 := exec (Add "Bea" "" "" None (Some [1; 1])) m1 in
   let m3 := exec (Delete 1) m2 in
   no_dangling (people m2) ∧ ¬ no_dangling (people m3)).
Proof.
  split; simpl.
  - split; [by intros p k ?%elem_of_nil|].
    intros H.
    destruct (H (new_person 1 "Ana" "" "" (Some [5]) None) 5) as [x Hx].
    + vm_compute. set_solver.
    + left. vm_compute. set_solver.
    + vm_compute in Hx. discriminate Hx.
  - split.
    + apply no_dangling_rel. intros s p k Hp Hk. vm_compute in Hp.
      apply elem_of_cons in Hp as [->|Hp];
        [|apply list_elem_of_singleton in Hp as ->];
        destruct s; vm_compute in Hk |- *; set_solver.
    + intros H.
      destruct (H (mkPerson 2 "Bea" "" (Some []) (Some [1]) "" None None) 1)
        as [x Hx].
      * vm_compute. set_solver.
      * right. vm_compute. set_solver.
      * vm_compute in Hx. discriminate Hx.
Qed.

(** ** What update_person does to the two lists *)


Lemma replace_map_withdrawn s own olds new q :
  ident q ∉ new →
  (own ∈ rel (flip s) q → NoDup (rel (flip s) q) ∧ ident q ∈ olds) →
  own ∉ rel (flip s) (replace_map s own olds new q).
Proof.
  intros Hnew Hold. unfold replace_map.
  rewrite elem_of_rel_link_map, rel_at_id_set_other.
  rewrite ident_at_id, ident_unlink_map by apply ident_set_rel.
  intros [Hin|[_ Hin]]; [|done].
  pose proof (elem_of_remove_first own own (rel (flip s) q)) as Hsub.
  assert (own ∈ rel (flip s) q) as Hq.
  { revert Hin. unfold unlink_map. case_decide; [|done].
    rewrite rel_set_rel. apply elem_of_remove_first. }
  destruct (Hold Hq) as [Hnd Hq_old].
  apply elem_of_rel_unlink_map_own in Hin; [|done]. tauto.
Qed.

Lemma replace_map_granted s own olds new q :
  ident q ∈ new → own ∈ rel (flip s) (replace_map s own olds new q).
Proof.
  intros Hnew. unfold replace_map. rewrite elem_of_rel_link_map.
  rewrite ident_at_id, ident_unlink_map by apply ident_set_rel. tauto.
Qed.

Lemma replace_map_self s own olds new q :
  ident q = own → (own ∈ rel (flip s) q ↔ own ∈ new) →
  rel (flip s) (replace_map s own olds new q) = rel (flip s) q.
Proof.
  intros Hid Hiff. unfold replace_map.
  assert (unlink_map (flip s) own olds new q = q) as ->.
  { unfold unlink_map. rewrite decide_False; [done|]. rewrite Hid. tauto. }
  unfold link_map. rewrite decide_False; [apply rel_at_id_set_other|].
  rewrite ident_at_id, rel_at_id_set_other by apply ident_set_rel.
  rewrite Hid. tauto.
Qed.

Lemma replace_rel_fmap (s : side) (i : nat) (new : list Z)
    (g : Person → Person) (ppl : list Person) (p : Person) :
  unique_ids ppl → ppl !! i = Some p →
  (∀ q, ident (g q) = ident q) → NoDup (rel s (g p)) →
  replace_rel s i new (g <$> ppl) =
  (λ q, replace_map s (ident p) (rel s (g p)) new (g q)) <$> ppl.
Proof.
  intros Hu Hi Hg Hnd.
  rewrite (replace_rel_map s i new (g <$> ppl) (g p)).
  - by rewrite <-list_fmap_compose, Hg.
  - by apply unique_ids_fmap.
  - by rewrite list_lookup_fmap, Hi.
  - done.
Qed.


(** One block of [update_person] run after a change [q0] that keeps ids
    and lists: the list of the record is the new one, the ids withdrawn
    lose the back-reference and the ids of the new list have it. *)
Section one_block.
Context (s : side) (new : list Z) (q0 : Person → Person)
      (ppl : list Person) (p : Person).
Hypothesis Hq0 : same_links q0.
Hypothesis Hdf : dup_free ppl.

Abbreviation block X := (replace_map s (ident p) (rel s p) new (q0 X)).

Lemma block_own : rel s (block p) = new.
Proof.
rewrite rel_replace_map, (proj1 (Hq0 p)). by rewrite decide_True.
Qed.

Lemma block_withdrawn (X : Person) :
X ∈ ppl → ident X ∈ rel s p → ident X ∉ new →
ident p ∉ rel (flip s) (block X).
Proof.
intros HX Hold Hnew. apply replace_map_withdrawn.
- by rewrite (proj1 (Hq0 X)).
- rewrite (proj1 (Hq0 X)), (proj2 (Hq0 X)). intros _. split; [|done].
  by apply (proj1 (dup_free_rel ppl)).
Qed.

Lemma block_granted (X : Person) :
ident X ∈ new → ident p ∈ rel (flip s) (block X).
Proof.
intros Hnew. apply replace_map_granted. by rewrite (proj1 (Hq0 X)).
Qed.

Lemma block_ident (X : Person) : ident (block X) = ident X.
Proof. rewrite ident_replace_map. apply Hq0. Qed.

Lemma block_NoDup_other (X : Person) :
X ∈ ppl → NoDup (rel (flip s) (block X)).
Proof.
intros HX. apply NoDup_rel_replace_map_other.
rewrite (proj2 (Hq0 X)). by apply (proj1 (dup_free_rel ppl)).
Qed.
End one_block.

Lemma updated_lists (id_ : Z) (i : nat) (p : Person) (kw : kwargs)
    (ppl : list Person) :
  unique_ids ppl → dup_free ppl → get id_ ppl = Some (i, p) →
  (∀ newP newC, supplied (kw_padres kw) = Some newP →
                supplied (kw_hijos kw) = Some newC →
                (id_ ∈ newP ↔ id_ ∈ newC)) →
  ∃ F : Person → Person,
    (∀ q, ident (F q) = ident q) ∧
    updated i kw ppl = F <$> ppl ∧
    (∀ new, supplied (kw_padres kw) = Some new →
       padres_of (F p) = new ∧
       (∀ X, X ∈ ppl → ident X ∈ padres_of p → ident X ∉ new →
             id_ ∉ hijos_of (F X)) ∧
       (∀ X, X ∈ ppl → ident X ∈ new → id_ ∈ hijos_of (F X))) ∧
    (∀ new, supplied (kw_hijos kw) = Some new →
       hijos_of (F p) = new ∧
       (∀ X, X ∈ ppl → ident X ∈ hijos_of p → ident X ∉ new →
             id_ ∉ padres_of (F X)) ∧
       (∀ X, X ∈ ppl → ident X ∈ new → id_ ∈ padres_of (F X))).
Proof.
  intros Hu Hdf Hget Hself.
  pose proof (get_Some _ _ _ _ Hget) as (Hi & Hid & Hp).
  pose proof (same_links_scalars (ident p) kw) as Hq1.
  pose proof (proj1 (dup_free_rel ppl) Hdf) as Hnd.
  set (q1 := at_id (ident p) (update_scalars kw)) in *.
  assert (alter (update_scalars kw) i ppl = q1 <$> ppl) as Hst1
    by by apply alter_at_id.
  assert (∀ s new, replace_rel s i new (q1 <$> ppl) =
            (λ X, replace_map s (ident p) (rel s p) new (q1 X)) <$> ppl)
    as Hblock.
  { intros s new. rewrite (replace_rel_fmap s i new q1 ppl p); try done.
    - by rewrite (proj2 (Hq1 p)).
    - intros q. apply Hq1.
    - rewrite (proj2 (Hq1 p)). by apply Hnd. }
  rewrite updated_stages, Hst1. subst id_.
  destruct (supplied (kw_padres kw)) as [newP|] eqn:HP;
    destruct (supplied (kw_hijos kw)) as [newC|] eqn:HC; simpl.
  - (* both lists replaced *)
    specialize (Hself newP newC eq_refl eq_refl).
    set (g1 := λ X, replace_map Padres (ident p) (rel Padres p) newP (q1 X)).
    assert (replace_rel Padres i newP (q1 <$> ppl) = g1 <$> ppl) as ->
      by apply Hblock.
    assert (∀ X, ident (g1 X) = ident X) as Hg1
      by (intros X; by apply block_ident).
    assert (padres_of (g1 p) = newP) as Hg1p
      by by apply (block_own Padres).
    assert (NoDup (hijos_of (g1 p))) as Hnd2
      by by apply (block_NoDup_other Padres newP q1 ppl).
    rewrite (replace_rel_fmap Hijos i newC g1 ppl p) by done.
    eexists. split_and!; [|reflexivity|..].
    + intros q. simpl. by rewrite ident_replace_map.
    + intros ? [= <-]. simpl. split_and!.
      * rewrite (replace_map_self Hijos : ∀ own olds new q, _ → _ →
                   padres_of (replace_map Hijos own olds new q) = padres_of q);
          [exact Hg1p | apply Hg1 | simpl; by rewrite Hg1p].
      * intros X HX Hold Hnew.
        rewrite (rel_replace_map Hijos : ∀ own olds new q,
                   hijos_of (replace_map Hijos own olds new q) = _), Hg1.
        case_decide as Heq; [rewrite Heq in Hnew; tauto|].
        by apply (block_withdrawn Padres newP q1 ppl).
      * intros X HX Hnew.
        rewrite (rel_replace_map Hijos : ∀ own olds new q,
                   hijos_of (replace_map Hijos own olds new q) = _), Hg1.
        case_decide as Heq; [rewrite Heq in Hnew; tauto|].
        by apply (block_granted Padres).
    + intros ? [= <-]. simpl. split_and!.
      * rewrite (rel_replace_map Hijos : ∀ own olds new q,
                   hijos_of (replace_map Hijos own olds new q) = _), Hg1.
        by rewrite decide_True.
      * intros X HX Hold Hnew.
        apply (replace_map_withdrawn Hijos); [by rewrite Hg1|].
        rewrite Hg1. simpl. intros Hin.
        destruct (decide (ident X = ident p)) as [Heq|Hne].
        { assert (X = p) as -> by by apply (unique_ids_elem ppl).
          rewrite Hg1p in Hin. tauto. }
        split.
        -- change (NoDup (rel Padres (replace_map Padres (ident p)
                                         (rel Padres p) newP (q1 X)))).
           rewrite rel_replace_map, (proj1 (Hq1 X)), decide_False by done.
           rewrite (proj2 (Hq1 X)). by apply Hnd.
        -- apply (elem_of_rel_replace_map_ne Padres); [done|].
           change (ident X ∈ rel Hijos (q1 p)). by rewrite (proj2 (Hq1 p)).
      * intros X HX Hnew. apply (replace_map_granted Hijos). by rewrite Hg1.
  - (* only "padres" replaced *)
    rewrite Hblock.
    eexists. split_and!; [|reflexivity| |by intros ? [=]].
    + intros q. by apply block_ident.
    + intros ? [= <-]. split_and!.
      * by apply (block_own Padres).
      * intros X HX Hold Hnew.
        by apply (block_withdrawn Padres newP q1 ppl).
      * intros X HX Hnew. by apply (block_granted Padres).
  - (* only "hijos" replaced *)
    rewrite Hblock.
    eexists. split_and!; [|reflexivity|by intros ? [=]|].
    + intros q. by apply block_ident.
    + intros ? [= <-]. split_and!.
      * by apply (block_own Hijos).
      * intros X HX Hold Hnew.
        by apply (block_withdrawn Hijos newC q1 ppl).
      * intros X HX Hnew. by apply (block_granted Hijos).
  - exists q1. split_and!; [intros q; apply Hq1 | done | by intros ? [=]..].
Qed.




(** ** Keyword arguments passed as None *)



(** *** What a block of update_person leaves alone *)

Section one_side.
Context {B : Type} (s : side) (g : Person → B).
Hypothesis Hg : ∀ v q, g (set_rel s v q) = g q.


End one_side.












(** * Further properties of FamilyModel *)

(** ** What is in memory and what is in the file *)

Lemma commit_Returned {A} (ppl : list Person) (a b : A) (m m' : FamilyModel) :
  commit ppl a m = (Returned b, m') →
  a = b ∧ m' = mkModel ppl (Some ppl) true.
Proof. unfold commit. destruct (writable m); by intros [= <- <-]. Qed.

Lemma commit_unwritable {A} (ppl : list Person) (a : A) (m : FamilyModel) :
  writable m = false →
  commit ppl a m = (Raised StorageWriteError, mkModel ppl (file m) false).
Proof. unfold commit. by intros ->. Qed.

(** X1. When [add_person] returns an id, or [update_person] or
    [delete_person] return [True], the file holds exactly the list in
    memory: a [load] right after gives the same model back. *)
Theorem success_means_saved (o : op) (m : FamilyModel) :
  succeeded o m →
  file (exec o m) = Some (people (exec o m)) ∧
  load (exec o m) = (Returned tt, exec o m).
Proof.
  destruct o as [name dob description parents children|id_ kw|id_]; simpl.
  - rewrite add_person_unfold. intros [g Hg].
    destruct (commit _ _ m) as [r m'] eqn:Hc. simpl in *. subst r.
    by apply commit_Returned in Hc as [_ ->].
  - rewrite update_person_unfold.
    destruct (get id_ (people m)) as [[i p]|]; [|by intros [= ]].
    intros Hr. destruct (commit _ _ m) as [r m'] eqn:Hc. simpl in *. subst r.
    by apply commit_Returned in Hc as [_ ->].
  - rewrite delete_person_unfold.
    destruct (get id_ (people m)) as [[i p]|]; [|by intros [= ]].
    intros Hr. destruct (commit _ _ m) as [r m'] eqn:Hc. simpl in *. subst r.
    by apply commit_Returned in Hc as [_ ->].
Qed.

Lemma success_means_saved_witness :
  let m := mkModel three_generations None true in
  let o := Update 2 (only_padres []) in
  file (exec o m) = Some (people (exec o m)) ∧
  load (exec o m) = (Returned tt, exec o m).
Proof.
  intros m o. apply (success_means_saved o m). reflexivity.
Defined.

Lemma deleted_shorter (id_ : Z) (ppl : list Person) :
  id_ ∈ ident <$> ppl → (length (deleted id_ ppl) < length ppl)%nat.
Proof.
  intros Hin.
  rewrite <-(length_fmap ident (deleted id_ ppl)), deleted_idents.
  rewrite <-(length_fmap ident ppl).
  induction (ident <$> ppl) as [|k l IH]; [by apply elem_of_nil in Hin|].
  rewrite filter_cons. case_decide as Hk; simpl.
  - apply elem_of_cons in Hin as [->|Hin]; [done|]. specialize (IH Hin). lia.
  - pose proof (length_filter (λ k, k ≠ id_) l). lia.
Qed.

(** X2. When the file cannot be opened for writing ([open] raises in
    [save]), [add_person] and [delete_person] raise and leave the file as
    it was, but the list in memory has already changed: the new record is
    in it, the deleted one is gone. *)
Theorem failed_save_keeps_change_in_memory (m : FamilyModel) :
  writable m = false →
  (∀ name dob description parents children,
     ∃ m', add_person name dob description parents children m
             = (Raised StorageWriteError, m') ∧
           file m' = file m ∧
           length (people m') = S (length (people m)) ∧
           is_Some (get (max_id (people m) + 1) (people m'))) ∧
  (∀ id_, id_ ∈ ident <$> people m →
     ∃ m', delete_person id_ m = (Raised StorageWriteError, m') ∧
           file m' = file m ∧
           (length (people m') < length (people m))%nat ∧
           get id_ (people m') = None).
Proof.
  intros Hw. split.
  - intros name dob description parents children. eexists.
    rewrite add_person_unfold, commit_unwritable by done.
    split_and!; [done | done | |]; simpl.
    + rewrite <-(length_fmap ident (append_linked _ _)), append_linked_idents.
      rewrite length_app, length_fmap. simpl. lia.
    + apply get_is_Some. rewrite append_linked_idents. simpl. set_solver.
  - intros id_ Hin. eexists.
    rewrite delete_person_unfold.
    destruct (get id_ (people m)) as [[i p]|] eqn:Hget.
    + rewrite commit_unwritable by done.
      split_and!; [done | done | by apply deleted_shorter |]. simpl.
      apply get_None. rewrite deleted_idents.
      intros [? _]%list_elem_of_filter. done.
    + apply get_None in Hget. done.
Qed.

Lemma failed_save_keeps_change_in_memory_witness :
  let m := mkModel [bare 1 [] []] (Some []) false in
  (∀ name dob description parents children,
     ∃ m', add_person name dob description parents children m
             = (Raised StorageWriteError, m') ∧
           file m' = file m ∧
           length (people m') = S (length (people m)) ∧
           is_Some (get (max_id (people m) + 1) (people m'))) ∧
  (∀ id_, id_ ∈ ident <$> people m →
     ∃ m', delete_person id_ m = (Raised StorageWriteError, m') ∧
           file m' = file m ∧
           (length (people m') < length (people m))%nat ∧
           get id_ (people m') = None).
Proof.
  intros m. apply (failed_save_keeps_change_in_memory m). reflexivity.
Defined.

(** ** Ids, order and number of records *)

Lemma filter_idents_absent (id_ : Z) (l : list Z) :
  id_ ∉ l → filter (λ k, k ≠ id_) l = l.
Proof.
  induction l as [|k l IH]; [done|].
  intros [Hk Hl]%not_elem_of_cons. rewrite filter_cons.
  rewrite decide_True by done. by rewrite IH.
Qed.

(** X3. [add_person] appends one record, with the new id, after the
    existing ones; [update_person] keeps the ids, their number and their
    order; [delete_person] takes out every record with the given id and
    keeps the others in their order. *)
Theorem ids_after_call (o : op) (m : FamilyModel) :
  ident <$> people (exec o m) =
  match o with
  | Add _ _ _ _ _ => (ident <$> people m) ++ [max_id (people m) + 1]
  | Update _ _ => ident <$> people m
  | Delete id_ => filter (λ k, k ≠ id_) (ident <$> people m)
  end.
Proof.
  rewrite people_exec.
  destruct o as [name dob description parents children|id_ kw|id_].
  - apply append_linked_idents.
  - destruct (get id_ (people m)) as [[i p]|]; [|done].
    apply updated_idents.
  - destruct (get id_ (people m)) as [[i p]|] eqn:Hget.
    + apply deleted_idents.
    + apply get_None in Hget. by rewrite filter_idents_absent.
Qed.

Lemma max_id_snoc (ppl ppl' : list Person) (g : Z) :
  ident <$> ppl' = (ident <$> ppl) ++ [g] →
  (∀ p, p ∈ ppl → ident p < g) →
  max_id ppl' = g.
Proof.
  intros Hids Hlt.
  assert (ppl' ≠ []) as Hne by (intros ->; by destruct (ident <$> ppl)).
  pose proof (max_id_attained ppl' Hne) as Hmax.
  assert (g ≤ max_id ppl') as Hge.
  { assert (g ∈ ident <$> ppl') as (q & -> & Hq)%list_elem_of_fmap
      by (rewrite Hids; set_solver).
    by apply max_id_upper. }
  rewrite Hids in Hmax. apply elem_of_app in Hmax as [Hmax|Hmax].
  - apply list_elem_of_fmap in Hmax as (q & Heq & Hq).
    specialize (Hlt q Hq). lia.
  - by apply list_elem_of_singleton in Hmax.
Qed.

(** X4. As long as nothing is deleted, ids go up by one: right after an
    [add_person] that allocated [g], [generate_id] returns [g + 1]. *)
Theorem next_id_after_add (m : FamilyModel) (name dob description : string)
    (parents children : option (list Z)) :
  ∃ g m1,
    generate_id m = (Returned g, m) ∧
    m1 = (add_person name dob description parents children m).2 ∧
    generate_id m1 = (Returned (g + 1), m1).
Proof.
  eexists _, _. split_and!; [reflexivity..|].
  unfold generate_id, read_people, mbind, method_bind, mret, method_ret.
  simpl.
  rewrite (max_id_snoc (people m) _ (max_id (people m) + 1)); [done| |].
  - change (add_person name dob description parents children m).2
      with (exec (Add name dob description parents children) m).
    rewrite people_exec. apply append_linked_idents.
  - intros p Hp%max_id_upper. lia.
Qed.

(** ** add_person and get *)





(** ** update_person and the scalar fields *)

Lemma updated_blind {B} (g : Person → B) (i : nat) (kw : kwargs)
    (ppl : list Person) :
  rel_blind g →
  g <$> updated i kw ppl = g <$> alter (update_scalars kw) i ppl.
Proof.
  intros Hg. unfold updated.
  destruct (supplied (kw_hijos kw)), (supplied (kw_padres kw)); simpl;
    by rewrite ?replace_hijos_proj, ?replace_padres_proj.
Qed.

Lemma lookup_fmap_eq {B} (g : Person → B) (l1 l2 : list Person) (j : nat)
    (q : Person) :
  g <$> l1 = g <$> l2 → l2 !! j = Some q →
  ∃ q', l1 !! j = Some q' ∧ g q' = g q.
Proof.
  intros Heq Hj.
  assert ((g <$> l1) !! j = Some (g q)) as Hl
    by by rewrite Heq, list_lookup_fmap, Hj.
  rewrite list_lookup_fmap in Hl.
  destruct (l1 !! j) as [q'|]; [|done]. exists q'.
  split; [done | by injection Hl].
Qed.

(** X6. [update_person] on a record of the store writes the scalar fields
    that are supplied and keeps the others; the record stays where it was,
    with its id and its position; and in every other record the id, the
    name, the date, the description and the position are as before. *)
Theorem update_writes_scalars (m : FamilyModel) (id_ : Z) (kw : kwargs)
    (i : nat) (p : Person) :
  get id_ (people m) = Some (i, p) →
  ∃ r m' p',
    update_person id_ kw m = (r, m') ∧
    people m' !! i = Some p' ∧
    ident p' = id_ ∧
    nombre p' = default (nombre p) (supplied (kw_nombre kw)) ∧
    fecha_nacimiento p' =
      default (fecha_nacimiento p) (supplied (kw_fecha_nacimiento kw)) ∧
    descripcion p' = default (descripcion p) (supplied (kw_descripcion kw)) ∧
    pos_x p' = pos_x p ∧ pos_y p' = pos_y p ∧
    length (people m') = length (people m) ∧
    ∀ j q, j ≠ i → people m !! j = Some q →
      ∃ q', people m' !! j = Some q' ∧ ident q' = ident q ∧
            scalars q' = scalars q.
Proof.
  intros Hget. pose proof (get_Some _ _ _ _ Hget) as (Hi & Hid & _).
  rewrite update_person_unfold, Hget.
  destruct (commit _ _ m) as [r m'] eqn:Hc.
  apply people_commit in Hc as Hp.
  assert (rel_blind (λ q, (ident q, scalars q))) as Hblind by done.
  pose proof (updated_blind _ i kw (people m) Hblind) as Heq.
  rewrite <-Hp in Heq.
  destruct (lookup_fmap_eq _ _ _ i (update_scalars kw p) Heq)
    as (p' & Hi' & Hp'); [by rewrite list_lookup_alter_eq, Hi|].
  exists r, m', p'. injection Hp' as Hpid Hn Hf Hd Hx Hy.
  split_and!; try done.
  - by rewrite Hpid, update_scalars_ident.
  - rewrite Hn. unfold update_scalars.
    by destruct (supplied (kw_nombre kw)),
      (supplied (kw_fecha_nacimiento kw)), (supplied (kw_descripcion kw)).
  - rewrite Hf. unfold update_scalars.
    by destruct (supplied (kw_nombre kw)),
      (supplied (kw_fecha_nacimiento kw)), (supplied (kw_descripcion kw)).
  - rewrite Hd. unfold update_scalars.
    by destruct (supplied (kw_nombre kw)),
      (supplied (kw_fecha_nacimiento kw)), (supplied (kw_descripcion kw)).
  - rewrite Hx. unfold update_scalars.
    by destruct (supplied (kw_nombre kw)),
      (supplied (kw_fecha_nacimiento kw)), (supplied (kw_descripcion kw)).
  - rewrite Hy. unfold update_scalars.
    by destruct (supplied (kw_nombre kw)),
      (supplied (kw_fecha_nacimiento kw)), (supplied (kw_descripcion kw)).
  - rewrite <-(length_fmap (λ q, (ident q, scalars q)) (people m')), Heq.
    by rewrite length_fmap, length_alter.
  - intros j q Hne Hj.
    destruct (lookup_fmap_eq _ _ _ j q Heq) as (q' & Hj' & Hq');
      [by rewrite list_lookup_alter_ne|].
    exists q'.
    split_and!; [done | exact (f_equal fst Hq') | exact (f_equal snd Hq')].
Qed.

Lemma update_writes_scalars_witness :
  let m := mkModel three_generations None true in
  let kw := mkKwargs (Given "Ana") PyNone Omitted (Given [1]) (Given []) in
  let p := bare 2 [1] [3] in
  ∃ r m' p',
    update_person 2 kw m = (r, m') ∧
    people m' !! 1%nat = Some p' ∧
    ident p' = 2 ∧
    nombre p' = default (nombre p) (supplied (kw_nombre kw)) ∧
    fecha_nacimiento p' =
      default (fecha_nacimiento p) (supplied (kw_fecha_nacimiento kw)) ∧
    descripcion p' = default (descripcion p) (supplied (kw_descripcion kw)) ∧
    pos_x p' = pos_x p ∧ pos_y p' = pos_y p ∧
    length (people m') = length (people m) ∧
    ∀ j q, j ≠ 1%nat → people m !! j = Some q →
      ∃ q', people m' !! j = Some q' ∧ ident q' = ident q ∧
            scalars q' = scalars q.
Proof.
  intros m kw p. apply (update_writes_scalars m 2 kw 1%nat p). reflexivity.
Defined.

(** ** add_person followed by delete_person *)

Lemma append_unlinked (g : Z) (name dob description : string)
    (ppl : list Person) :
  append_linked (new_person g name dob description None None) ppl =
  ppl ++ [new_person g name dob description None None].
Proof.
  unfold append_linked. simpl. by rewrite list_lookup_middle.
Qed.

Lemma drop_references_unreferenced (id_ : Z) (q : Person) :
  id_ ∉ padres_of q → id_ ∉ hijos_of q → drop_references id_ q = q.
Proof.
  intros Hp Hh. unfold drop_references.
  rewrite (decide_False (P := id_ ∈ padres_of q)) by done.
  by rewrite decide_False.
Qed.

Lemma deleted_unreferenced_fresh (id_ : Z) (ppl : list Person) :
  unreferenced id_ ppl → id_ ∉ ident <$> ppl → deleted id_ ppl = ppl.
Proof.
  intros Hun Hfresh. unfold deleted.
  rewrite fmap_same.
  - induction ppl as [|q ppl IH]; [done|].
    rewrite filter_cons.
    rewrite fmap_cons in Hfresh. apply not_elem_of_cons in Hfresh as [Hq Hf].
    rewrite decide_True by done. f_equal. apply IH; [|done].
    intros s q' Hq'. apply Hun. by right.
  - intros q Hq. apply drop_references_unreferenced.
    + apply (Hun Padres q Hq).
    + apply (Hun Hijos q Hq).
Qed.

(** X7. Adding a person without links and deleting it again gives the list
    back as it was, provided no record listed the id that was allocated;
    the id is then free again, and [generate_id] hands it out a second
    time. *)
Theorem add_then_delete_restores (m : FamilyModel)
    (name dob description : string) :
  let g := max_id (people m) + 1 in
  let m2 := exec (Delete g) (exec (Add name dob description None None) m) in
  unreferenced g (people m) →
  people m2 = people m ∧ generate_id m2 = (Returned g, m2).
Proof.
  intros g m2 Hun.
  assert (people m2 = people m) as Hppl.
  { unfold m2. rewrite people_exec, people_exec, append_unlinked.
    fold g.
    destruct (get g (people m ++ [new_person g name dob description None None]))
      as [[i p]|] eqn:Hget.
    - unfold deleted. rewrite fmap_app, filter_app.
      change (filter (λ x, ident x ≠ g) (drop_references g <$> people m))
        with (deleted g (people m)).
      rewrite deleted_unreferenced_fresh; [|done|apply max_id_fresh].
      simpl. rewrite filter_cons, decide_False; [by rewrite app_nil_r|].
      intros Hne. apply Hne. apply ident_drop_references.
    - apply get_None in Hget. rewrite fmap_app in Hget. set_solver. }
  split; [done|].
  unfold generate_id, read_people, mbind, method_bind, mret, method_ret.
  simpl. by rewrite Hppl.
Qed.

Lemma add_then_delete_restores_witness :
  let m := mkModel three_generations None true in
  let m2 := exec (Delete 4) (exec (Add "Dora" "" "" None None) m) in
  people m2 = people m ∧ generate_id m2 = (Returned 4, m2).
Proof.
  intros m. apply (add_then_delete_restores m "Dora" "" "").
  intros s q Hq. vm_compute in Hq.
  repeat (apply elem_of_cons in Hq as [->|Hq]);
    [destruct s; vm_compute; set_solver..|by apply elem_of_nil in Hq].
Defined.

(** ** Validated calls *)

(** X8. Along validated calls (duplicate-free lists of ids of the store)
    from a well-formed store, ids stay unique and the relationship lists
    stay free of repetitions after every call. *)
Theorem validated_calls_keep_ids_unique (ops : list op) (m : FamilyModel) :
  wf (people m) → valid_calls ops m →
  ∀ done rest, ops = done ++ rest →
    unique_ids (people (run done m)) ∧ dup_free (people (run done m)).
Proof.
  intros Hwf Hv done rest ->.
  destruct (run_wf done rest m Hwf Hv) as (Hu & Hdf & _). done.
Qed.

Lemma validated_calls_keep_ids_unique_witness :
  unique_ids (people (run sample_calls empty_model)) ∧
  dup_free (people (run sample_calls empty_model)).
Proof.
  apply (validated_calls_keep_ids_unique sample_calls empty_model
           wf_nil sample_calls_valid sample_calls []).
  by rewrite app_nil_r.
Defined.

(** * The scene *)

(** ** reload_scene *)

Lemma fold_insert_absent {V} (v : Person → V) (ppl : list Person)
    (d : gmap Z V) (k : Z) :
  k ∉ ident <$> ppl →
  foldl (λ d p, <[ident p := v p]> d) d ppl !! k = d !! k.
Proof.
  revert d. induction ppl as [|q ppl IH]; intros d Hk; [done|].
  rewrite fmap_cons in Hk. apply not_elem_of_cons in Hk as [Hq Hk]. simpl.
  rewrite IH by done. by rewrite lookup_insert_ne.
Qed.

Lemma fold_insert_is_Some {V} (v : Person → V) (ppl : list Person)
    (d : gmap Z V) (k : Z) :
  is_Some (foldl (λ d p, <[ident p := v p]> d) d ppl !! k) ↔
  is_Some (d !! k) ∨ k ∈ ident <$> ppl.
Proof.
  revert d. induction ppl as [|q ppl IH]; intros d; simpl.
  - rewrite elem_of_nil. tauto.
  - rewrite IH, elem_of_cons.
    destruct (decide (ident q = k)) as [<-|Hne].
    + rewrite lookup_insert_eq. split; [tauto|]. intros _. left. by eexists.
    + rewrite lookup_insert_ne by done. split; [tauto|].
      intros [?|[?|?]]; [tauto|congruence|tauto].
Qed.

Lemma fold_insert_unique {V} (v : Person → V) (ppl : list Person)
    (d : gmap Z V) (p : Person) :
  unique_ids ppl → p ∈ ppl →
  foldl (λ d p, <[ident p := v p]> d) d ppl !! ident p = Some (v p).
Proof.
  revert d. induction ppl as [|q ppl IH]; intros d Hu Hp;
    [by apply elem_of_nil in Hp|].
  unfold unique_ids in Hu. rewrite fmap_cons in Hu.
  apply NoDup_cons in Hu as [Hq Hu]. simpl.
  apply elem_of_cons in Hp as [->|Hp].
  - rewrite fold_insert_absent by done. apply lookup_insert_eq.
  - by apply IH.
Qed.

Lemma elem_of_create_edges (nodes : gmap Z (Q * Q)) (ppl : list Person)
    (a c : Z) :
  (a, c) ∈ create_edges nodes ppl ↔
  ∃ p, p ∈ ppl ∧ ident p = a ∧ is_Some (nodes !! a) ∧
       c ∈ hijos_of p ∧ is_Some (nodes !! c).
Proof.
  unfold create_edges. rewrite list_elem_of_bind. split.
  - intros (p & Hin & Hp). exists p.
    destruct (nodes !! ident p) as [v|] eqn:Hsrc;
      [|by apply elem_of_nil in Hin].
    apply list_elem_of_fmap in Hin as (c' & [= -> ->] & Hc).
    apply list_elem_of_filter in Hc as [Hdst Hc].
    split_and!; [done | done | by rewrite Hsrc | done | done].
  - intros (p & Hp & <- & [v Hsrc] & Hc & Hdst). exists p. split; [|done].
    rewrite Hsrc. apply list_elem_of_fmap. exists c. split; [done|].
    by apply list_elem_of_filter.
Qed.

Lemma create_nodes_is_Some (ppl : list Person) (k : Z) :
  is_Some (create_nodes ppl !! k) ↔ k ∈ ident <$> ppl.
Proof.
  unfold create_nodes. rewrite fold_insert_is_Some.
  rewrite lookup_empty. split; [|tauto]. intros [[? [=]]|?]. done.
Qed.

(** X9. [reload_scene] rebuilds the scene from the file alone: the list in
    memory is the saved one, there is a node exactly for the ids of its
    records, and an edge from [a] to [c] exactly when a record with id [a]
    lists [c] as a child and [c] is the id of a record - a child id that no
    record carries gets no edge.  With unique ids each node stands at the
    saved position of its record, or at 0 where none was saved. *)
Theorem reload_scene_rebuilds_from_file (w : MainWindow) :
  let ppl := default [] (file (model w)) in
  let w' := reload_scene w in
  people (model w') = ppl ∧
  file (model w') = file (model w) ∧
  (∀ k, is_Some (node_map w' !! k) ↔ k ∈ ident <$> ppl) ∧
  (∀ a c, (a, c) ∈ edge_items w' ↔
          ∃ p, p ∈ ppl ∧ ident p = a ∧ c ∈ hijos_of p ∧ c ∈ ident <$> ppl) ∧
  (unique_ids ppl → ∀ p, p ∈ ppl →
     node_map w' !! ident p = Some (or_zero (pos_x p), or_zero (pos_y p))).
Proof.
  intros ppl w'. simpl. fold ppl.
  pose proof (create_nodes_is_Some ppl) as Hnodes.
  split_and!; [done | done | done | |].
  - intros a c. rewrite elem_of_create_edges. split.
    + intros (p & Hp & Ha & _ & Hc & Hdst). exists p.
      split_and!; [done..|]. by apply Hnodes.
    + intros (p & Hp & Ha & Hc & Hdst). exists p.
      split_and!; [done | done | | done | by apply Hnodes].
      apply Hnodes. rewrite <-Ha. apply list_elem_of_fmap. by exists p.
  - intros Hu p Hp.
    by apply (fold_insert_unique
                (λ q, (or_zero (pos_x q), or_zero (pos_y q)))).
Qed.


(** * Further properties of the layout *)

(** ** Which ids are placed *)








(** ** The shape of the levels *)

Lemma scan_children_NoDup (vis : gset Z) (cs nxt : list Z) :
  NoDup nxt → NoDup (scan_children vis nxt cs).
Proof.
  unfold scan_children. revert nxt.
  induction cs as [|d cs IH]; intros nxt Hnd; simpl; [done|].
  apply IH. repeat case_decide; try done.
  apply NoDup_app. split_and!; [done| |apply NoDup_singleton].
  intros k Hk ->%list_elem_of_singleton. done.
Qed.

Lemma visit_level_NoDup (children : gmap Z (list Z)) (vis vis' : gset Z)
    (current nxt : list Z) :
  visit_level children vis current = (vis', nxt) → NoDup nxt.
Proof.
  unfold visit_level.
  assert (∀ vis0 nxt0, NoDup nxt0 →
            foldl (λ '(vis, nxt) nid,
                     let vis' := {[nid]} ∪ vis in
                     (vis', scan_children vis' nxt
                              (default [] (children !! nid))))
                  (vis0, nxt0) current = (vis', nxt) → NoDup nxt) as H.
  { induction current as [|k cur IH]; intros vis0 nxt0 Hnd; simpl.
    - by intros [= <- <-].
    - apply IH. by apply scan_children_NoDup. }
  apply H. constructor.
Qed.

Lemma child_of_level_mono (children : gmap Z (list Z))
    (levels more : list (nat * list Z)) (l : nat) (c : Z) :
  child_of_level children levels l c →
  child_of_level children (levels ++ more) l c.
Proof.
  intros (prev & nid & Hin & Hnid & Hc). exists prev, nid.
  split_and!; [|done..]. apply elem_of_app. by left.
Qed.

Lemma bfs_shape (fuel : nat) (children : gmap Z (list Z)) (root_ids : list Z)
    (levels : list (nat * list Z)) (vis : gset Z) (current : list Z)
    (level : nat) (res : list (nat * list Z)) :
  loop_shape children root_ids levels vis current level →
  bfs fuel children levels vis current level = Some res →
  level_shape children root_ids res.
Proof.
  revert levels vis current level.
  induction fuel as [|fuel IH]; intros levels vis current level Hinv Hbfs.
  { destruct current; [|done]. injection Hbfs as <-. apply Hinv. }
  destruct current as [|k0 cur]; [injection Hbfs as <-; apply Hinv|].
  simpl in Hbfs.
  destruct (visit_level children vis (k0 :: cur)) as [vis' nxt] eqn:Hv.
  pose proof (visit_level_NoDup _ _ _ _ _ Hv) as Hnd.
  apply visit_level_spec in Hv as [Hvis Hnxt].
  eapply IH; [|exact Hbfs]. clear IH Hbfs.
  destruct Hinv as ((Hzero & Hlater & Hrow) & Hold & Hcur & Hstart & Hnext).
  assert (∀ l ids, (l, ids) ∈ levels ++ [(level, k0 :: cur)] →
            (l, ids) ∈ levels ∨ (l = level ∧ ids = k0 :: cur)) as Hsplit.
  { intros l ids [?|Hin]%elem_of_app; [by left|].
    apply list_elem_of_singleton in Hin as [= -> ->]. by right. }
  split_and!.
  - split_and!.
    + intros ids [Hin|[Hl ->]]%Hsplit; [by apply Hzero|].
      symmetry in Hl. by apply Hstart.
    + intros l ids [Hin|[Hl ->]]%Hsplit.
      * destruct (Hlater l ids Hin) as [H1 H2]. split; [done|].
        intros c Hc. by apply child_of_level_mono, H2.
      * symmetry in Hl. destruct (Hnext l Hl) as [H1 H2]. split; [done|].
        intros c Hc. by apply child_of_level_mono, H2.
    + intros l1 l2 ids1 ids2 k [Hin1|[-> ->]]%Hsplit [Hin2|[-> ->]]%Hsplit
        Hk1 Hk2 Hlt.
      * by eapply Hrow.
      * symmetry. by eapply Hcur.
      * destruct (Hold l2 ids2 Hin2) as [? _]. lia.
      * lia.
  - intros l ids [Hin|[-> ->]]%Hsplit.
    + destruct (Hold l ids Hin) as [? Hsub]. split; [lia|].
      intros k Hk. subst vis'. apply elem_of_union. right. by apply Hsub.
    + split; [lia|]. intros k Hk. subst vis'. set_solver.
  - intros k l ids Hk [Hin|[-> ->]]%Hsplit Hkin; [|done].
    apply Hnxt in Hk as [Hk _]. destruct (Hold l ids Hin) as [_ Hsub].
    destruct Hk. by apply Hsub.
  - done.
  - intros l [= <-]. split; [done|]. intros c Hc.
    apply Hnxt in Hc as (_ & nid & Hnid & Hc).
    exists (k0 :: cur), nid. split_and!; [|done..].
    apply elem_of_app. right. by apply list_elem_of_singleton.
Qed.

(** X11. The shape of the levels.  Level 0 is the list of roots; every
    later level has no repetition and holds only ids listed as children
    under an id of the level before; and an id that stands in two levels
    stands in two levels in a row - a level further down never takes it up
    again. *)
Theorem levels_overlap_only_in_a_row (ppl : list Person) :
  ∃ levels,
    layout_levels ppl = Some levels ∧
    (∀ ids, (0%nat, ids) ∈ levels → ids = roots ppl) ∧
    (∀ l ids, (S l, ids) ∈ levels →
       NoDup ids ∧
       ∀ c, c ∈ ids →
         ∃ prev nid, (l, prev) ∈ levels ∧ nid ∈ prev ∧
                     c ∈ default [] (id_to_children ppl !! nid)) ∧
    (∀ l1 l2 ids1 ids2 k,
       (l1, ids1) ∈ levels → (l2, ids2) ∈ levels →
       k ∈ ids1 → k ∈ ids2 → (l1 < l2)%nat → l2 = S l1).
Proof.
  destruct (layout_levels_total ppl) as [levels Hl]. exists levels.
  split; [done|].
  change (level_shape (id_to_children ppl) (roots ppl) levels).
  apply (bfs_shape (enough_fuel ppl) (id_to_children ppl) (roots ppl)
           [] ∅ (roots ppl) 0%nat levels); [|exact Hl].
  split_and!.
  - split_and!.
    + by intros ids ?%elem_of_nil.
    + by intros l ids ?%elem_of_nil.
    + by intros l1 l2 ids1 ids2 k ?%elem_of_nil.
  - by intros l ids ?%elem_of_nil.
  - by intros k l ids _ ?%elem_of_nil.
  - done.
  - by intros l [=].
Qed.

(** ** Which nodes move *)







(** ** save_positions *)

Lemma store_position_step (ppl : list Person) (item : Z * (Q * Q)) :
  unique_ids ppl →
  store_position ppl item = at_id item.1 (set_xy item.2) <$> ppl.
Proof.
  intros Hu. unfold store_position.
  destruct (get item.1 ppl) as [[j p]|] eqn:Hget.
  - apply get_Some in Hget as (Hj & <- & _). by apply alter_at_id.
  - symmetry. apply fmap_same. intros q Hq. unfold at_id.
    rewrite decide_False; [done|]. intros Heq.
    apply get_None in Hget. apply Hget. rewrite <-Heq.
    apply list_elem_of_fmap. by exists q.
Qed.

Lemma foldl_store_position (items : list (Z * (Q * Q))) (ppl : list Person) :
  unique_ids ppl → NoDup (fst <$> items) →
  foldl store_position ppl items =
  (λ q, from_option (λ pos, set_xy pos q) q
          ((list_to_map items : gmap Z (Q * Q)) !! ident q)) <$> ppl.
Proof.
  revert ppl. induction items as [|[k pos] items IH]; intros ppl Hu Hnd.
  - simpl. symmetry. apply fmap_same. intros q _. by rewrite lookup_empty.
  - rewrite fmap_cons in Hnd. apply NoDup_cons in Hnd as [Hk Hnd]. simpl.
    rewrite store_position_step by done. rewrite IH; [|  |done].
    + rewrite <-list_fmap_compose. apply fmap_agree. intros q _. simpl.
      unfold at_id. simpl. case_decide as Hq.
      * subst k. rewrite lookup_insert_eq. simpl.
        by rewrite (not_elem_of_list_to_map_1 _ _ Hk).
      * by rewrite lookup_insert_ne.
    + apply unique_ids_fmap; [|done]. intros q. by apply ident_at_id.
Qed.

Lemma positions_stored (nodes : gmap Z (Q * Q)) (ppl : list Person) :
  unique_ids ppl →
  foldl store_position ppl (map_to_list nodes) =
  (λ q, from_option (λ pos, set_xy pos q) q (nodes !! ident q)) <$> ppl.
Proof.
  intros Hu. rewrite foldl_store_position;
    [|done|apply NoDup_fst_map_to_list].
  by rewrite list_to_map_to_list.
Qed.

Lemma or_zero_Some (x : Q) : (or_zero (Some x) == x)%Q.
Proof.
  simpl. destruct (Qeq_bool x 0) eqn:Hx; [|reflexivity].
  apply Qeq_bool_iff in Hx. by symmetry.
Qed.

(** X13. Positions survive saving and reloading.  With unique ids and a
    writable file, after [save_positions] and [reload_scene] every node
    whose id is in the store stands where it stood, every record has its
    id, name, date, description and lists as before, and its saved
    position is that of its node. *)
Theorem positions_survive_reload (w : MainWindow) :
  unique_ids (people (model w)) → writable (model w) = true →
  ∃ w1,
    save_positions w = (Handled, w1) ∧
    let w2 := reload_scene w1 in
    (λ q, (ident q, nombre q, fecha_nacimiento q, descripcion q,
           padres q, hijos q)) <$> people (model w2)
    = (λ q, (ident q, nombre q, fecha_nacimiento q, descripcion q,
             padres q, hijos q)) <$> people (model w) ∧
    (∀ k x y, node_map w !! k = Some (x, y) →
       k ∈ ident <$> people (model w) →
       ∃ x' y', node_map w2 !! k = Some (x', y') ∧
                (x' == x)%Q ∧ (y' == y)%Q ∧
                ∃ q, q ∈ people (model w2) ∧ ident q = k ∧
                     pos_x q = Some x ∧ pos_y q = Some y).
Proof.
  intros Hu Hw. unfold save_positions.
  rewrite positions_stored by done.
  unfold write_people, save, mbind, method_bind. simpl. rewrite Hw.
  eexists. split; [reflexivity|]. simpl.
  set (F := λ q, from_option (λ pos, set_xy pos q) q
                   (node_map w !! ident q)).
  assert (∀ q, ident (F q) = ident q) as HF.
  { intros q. unfold F. by destruct (node_map w !! ident q). }
  split.
  - rewrite <-list_fmap_compose. apply list_fmap_ext. intros j q _.
    simpl. unfold F. by destruct (node_map w !! ident q).
  - intros k x y Hk (q & -> & Hq)%list_elem_of_fmap.
    assert (F q = set_xy (x, y) q) as HFq by (unfold F; by rewrite Hk).
    exists (or_zero (Some x)), (or_zero (Some y)).
    split_and!; [|apply or_zero_Some..|].
    + unfold create_nodes. rewrite <-(HF q).
      rewrite (fold_insert_unique
                 (λ p, (or_zero (pos_x p), or_zero (pos_y p)))
                 (F <$> people (model w)) ∅ (F q)).
      * by rewrite HFq.
      * by apply unique_ids_fmap.
      * apply list_elem_of_fmap. by exists q.
    + exists (F q). split_and!; [|done|by rewrite HFq..].
      apply list_elem_of_fmap. by exists q.
Qed.

Lemma positions_survive_reload_witness :
  let w := mkWindow (mkModel three_generations None true)
                    (list_to_map [(1, (0, 0)%Q); (2, (-100, 200)%Q);
                                  (3, (100, 400)%Q)]) [] in
  ∃ w1,
    save_positions w = (Handled, w1) ∧
    let w2 := reload_scene w1 in
    (λ q, (ident q, nombre q, fecha_nacimiento q, descripcion q,
           padres q, hijos q)) <$> people (model w2)
    = (λ q, (ident q, nombre q, fecha_nacimiento q, descripcion q,
             padres q, hijos q)) <$> people (model w) ∧
    (∀ k x y, node_map w !! k = Some (x, y) →
       k ∈ ident <$> people (model w) →
       ∃ x' y', node_map w2 !! k = Some (x', y') ∧
                (x' == x)%Q ∧ (y' == y)%Q ∧
                ∃ q, q ∈ people (model w2) ∧ ident q = k ∧
                     pos_x q = Some x ∧ pos_y q = Some y).
Proof.
  intros w. apply (positions_survive_reload w); [|reflexivity].
  apply (bool_decide_unpack _). vm_compute. exact I.
Defined.

(** * Actions of the user *)

(** ** Deleting from the context menu *)

(** X14. "Eliminar persona" on the node of a record, with a writable file:
    the records with that id are gone from the list, and the rebuilt scene
    has no node for the id and no edge that starts or ends at it. *)
Theorem delete_action_clears_scene (i : nat) (p : Person) (w : MainWindow) :
  people (model w) !! i = Some p → writable (model w) = true →
  ∃ w',
    delete_action i w = (Handled, w') ∧
    people (model w') = deleted (ident p) (people (model w)) ∧
    get (ident p) (people (model w')) = None ∧
    node_map w' !! ident p = None ∧
    ∀ a c, (a, c) ∈ edge_items w' → a ≠ ident p ∧ c ≠ ident p.
Proof.
  intros Hi Hw. unfold delete_action. rewrite Hi.
  rewrite delete_person_unfold.
  assert (is_Some (get (ident p) (people (model w)))) as [[j q] Hget].
  { apply get_is_Some, list_elem_of_fmap. exists p.
    eauto using list_elem_of_lookup_2. }
  rewrite Hget. unfold commit. rewrite Hw.
  eexists. split; [reflexivity|]. simpl.
  assert (ident p ∉ ident <$> deleted (ident p) (people (model w))) as Hgone.
  { rewrite deleted_idents. by intros [? _]%list_elem_of_filter. }
  split_and!; [done | by apply get_None | |].
  - apply eq_None_not_Some. by rewrite create_nodes_is_Some.
  - intros a c (q' & Hq' & <- & Hsrc & Hc & Hdst)%elem_of_create_edges.
    apply create_nodes_is_Some in Hsrc, Hdst.
    split; intros Heq; rewrite Heq in *; done.
Qed.

Lemma delete_action_clears_scene_witness :
  let w := mkWindow (mkModel three_generations None true) ∅ [] in
  let p := bare 2 [1] [3] in
  ∃ w',
    delete_action 1 w = (Handled, w') ∧
    people (model w') = deleted (ident p) (people (model w)) ∧
    get (ident p) (people (model w')) = None ∧
    node_map w' !! ident p = None ∧
    ∀ a c, (a, c) ∈ edge_items w' → a ≠ ident p ∧ c ≠ ident p.
Proof.
  intros w p. apply (delete_action_clears_scene 1 p w); reflexivity.
Defined.

(** ** Adding from the toolbar *)

Lemma create_nodes_snoc (ppl : list Person) (person : Person) :
  create_nodes (ppl ++ [person]) !! ident person =
  Some (or_zero (pos_x person), or_zero (pos_y person)).
Proof.
  unfold create_nodes. rewrite foldl_app. simpl. apply lookup_insert_eq.
Qed.

(** X15. [add_person_dialog]: when the first dialog is cancelled or the
    name is empty nothing changes; otherwise, with a writable file, one
    record without links is appended under the next id, and the rebuilt
    scene shows it at the origin. *)
Theorem add_person_dialog_adds_at_origin (ok : bool) (name dob desc : string)
    (w : MainWindow) :
  writable (model w) = true →
  ∃ w',
    add_person_dialog ok name dob desc w = (Handled, w') ∧
    (ok = false ∨ name = "" → w' = w) ∧
    (ok = true → name ≠ "" →
       let g := max_id (people (model w)) + 1 in
       people (model w') =
         people (model w) ++
         [mkPerson g name dob (Some []) (Some []) desc None None] ∧
       file (model w') = Some (people (model w')) ∧
       node_map w' !! g = Some (0%Q, 0%Q)).
Proof.
  intros Hw. unfold add_person_dialog.
  destruct ok; simpl.
  - destruct (bool_decide (name = "")) eqn:Hname.
    + apply bool_decide_eq_true in Hname. exists w.
      split_and!; [done | done | by intros _ ?].
    + apply bool_decide_eq_false in Hname.
      rewrite add_person_unfold, append_unlinked. unfold commit. rewrite Hw.
      eexists. split_and!; [reflexivity | by intros [?|?] |].
      intros _ _. simpl. split_and!; [done | done |].
      apply (create_nodes_snoc (people (model w))
               (new_person (max_id (people (model w)) + 1) name dob desc
                           None None)).
  - exists w. split_and!; [done | done | by intros ?].
Qed.

Lemma add_person_dialog_adds_at_origin_witness :
  let w := mkWindow (mkModel three_generations None true) ∅ [] in
  ∃ w',
    add_person_dialog true "Dora" "" "" w = (Handled, w') ∧
    (true = false ∨ "Dora" = "" → w' = w) ∧
    (true = true → "Dora" ≠ "" →
       let g := max_id (people (model w)) + 1 in
       people (model w') =
         people (model w) ++
         [mkPerson g "Dora" "" (Some []) (Some []) "" None None] ∧
       file (model w') = Some (people (model w')) ∧
       node_map w' !! g = Some (0%Q, 0%Q)).
Proof.
  intros w. apply (add_person_dialog_adds_at_origin true "Dora" "" "" w).
  reflexivity.
Defined.

(** ** Adding a child from the context menu *)

Lemma get_snoc_fresh (ppl : list Person) (person : Person) :
  ident person ∉ ident <$> ppl →
  get (ident person) (ppl ++ [person]) = Some (length ppl, person).
Proof.
  intros Hfresh. apply list_find_Some.
  split_and!; [by apply list_lookup_middle | done |].
  intros j q Hj Hlt Hq. apply Hfresh. rewrite <-Hq.
  rewrite lookup_app_l in Hj by done.
  apply list_elem_of_fmap. exists q. eauto using list_elem_of_lookup_2.
Qed.

(** X16. "Agregar hijo" on the node of a record, with a writable file and a
    name that is not empty, leaves the model exactly as
    [add_person(name, parents=[id])] would: the child is appended with the
    record as its only parent, and the record gets the child's id at the
    end of its ["hijos"], unless it lists that id already. *)
Theorem add_child_action_is_add_with_parent (i : nat) (p : Person)
    (name : string) (w : MainWindow) :
  get (ident p) (people (model w)) = Some (i, p) →
  writable (model w) = true → name ≠ "" →
  let g := max_id (people (model w)) + 1 in
  ∃ w',
    add_child_action i true name w = (Handled, w') ∧
    model w' = (add_person name "" "" (Some [ident p]) None (model w)).2 ∧
    people (model w') =
      (if decide (g ∈ hijos_of p) then people (model w)
       else alter (append_hijo g) i (people (model w)))
      ++ [mkPerson g name "" (Some [ident p]) (Some []) "" None None].
Proof.
  intros Hget Hw Hname g.
  pose proof (get_Some _ _ _ _ Hget) as (Hi & _ & _).
  pose proof (lookup_lt_Some _ _ _ Hi) as Hlt.
  pose proof (max_id_fresh (people (model w))) as Hfresh. fold g in Hfresh.
  set (ppl := people (model w)) in *.
  set (child0 := new_person g name "" "" None None).
  set (child := mkPerson g name "" (Some [ident p]) (Some []) "" None None).
  assert ((add_person name "" "" (Some [ident p]) None (model w)).2 =
          mkModel ((if decide (g ∈ hijos_of p) then ppl
                    else alter (append_hijo g) i ppl) ++ [child])
                  (Some ((if decide (g ∈ hijos_of p) then ppl
                          else alter (append_hijo g) i ppl) ++ [child]))
                  true) as Hdirect.
  { rewrite add_person_unfold. unfold commit. rewrite Hw. simpl.
    fold ppl g.
    assert (append_linked (new_person g name "" "" (Some [ident p]) None) ppl
            = (if decide (g ∈ hijos_of p) then ppl
               else alter (append_hijo g) i ppl) ++ [child]) as ->; [|done].
    set (L := if decide (g ∈ hijos_of p) then ppl
              else alter (append_hijo g) i ppl).
    assert (length L = length ppl) as HL
      by (unfold L; case_decide; by rewrite ?length_alter).
    assert (link_hijo g (ppl ++ [new_person g name "" "" (Some [ident p]) None])
                      (ident p)
            = L ++ [child]) as Hlink.
    { unfold link_hijo, L.
      rewrite (list_find_app_l _ _ _ _ _ Hget : get (ident p) (ppl ++ _) = _).
      case_decide; [done | by rewrite alter_app_l]. }
    unfold append_linked. simpl. rewrite Hlink.
    rewrite list_lookup_middle by done. done. }
  unfold add_child_action.
  rewrite (bool_decide_eq_false_2 _ Hname). simpl.
  rewrite add_person_unfold, append_unlinked. unfold commit. rewrite Hw.
  simpl. fold ppl g child0.
  rewrite lookup_app_l, Hi by done.
  set (L := if decide (g ∈ hijos_of p) then ppl
            else alter (append_hijo g) i ppl) in *.
  assert (length L = length ppl) as HL
    by (unfold L; case_decide; by rewrite ?length_alter).
  assert (ident <$> L = ident <$> ppl) as HLid
    by (unfold L; case_decide; by rewrite ?alter_proj).
  assert ((if decide (g ∈ hijos_of p) then ppl ++ [child0]
           else alter (append_hijo g) i (ppl ++ [child0])) = L ++ [child0])
    as ->.
  { unfold L. case_decide; [done | by rewrite alter_app_l]. }
  pose proof (get_snoc_fresh L child0) as Hchild.
  change (ident child0) with g in Hchild.
  rewrite Hchild by by rewrite HLid.
  assert (alter (append_padre (ident p)) (length L) (L ++ [child0])
          = L ++ [child]) as ->.
  { rewrite <-(Nat.add_0_r (length L)), alter_app_r. done. }
  eexists. split_and!; [reflexivity | by rewrite Hdirect | done].
Qed.

Lemma add_child_action_is_add_with_parent_witness :
  let w := mkWindow (mkModel three_generations None true) ∅ [] in
  ∃ w',
    add_child_action 1 true "Dora" w = (Handled, w') ∧
    model w' = (add_person "Dora" "" "" (Some [2]) None (model w)).2 ∧
    people (model w') =
      [bare 1 [] [2]; bare 2 [1] [3; 4]; bare 3 [2] [];
       mkPerson 4 "Dora" "" (Some [2]) (Some []) "" None None].
Proof.
  intros w.
  exact (add_child_action_is_add_with_parent 1 (bare 2 [1] [3]) "Dora" w
           eq_refl eq_refl ltac:(discriminate)).
Defined.

(** ** The edit dialog *)

Lemma dialog_items_known (p : Person) (ppl : list Person) (l : list Z) :
  l ⊆+ dialog_items p ppl → known ppl l ∧ ident p ∉ l.
Proof.
  intros Hsub. split.
  - intros k Hk. apply (elem_of_submseteq _ _ _ Hk) in Hsub.
    apply list_elem_of_fmap in Hsub as (q & -> & Hq%list_elem_of_filter).
    apply list_elem_of_fmap. exists q. by destruct Hq.
  - intros Hk. apply (elem_of_submseteq _ _ _ Hk) in Hsub.
    apply list_elem_of_fmap in Hsub as (q & Heq & Hq%list_elem_of_filter).
    by destruct Hq.
Qed.

Lemma dialog_items_NoDup (p : Person) (ppl : list Person) (l : list Z) :
  unique_ids ppl → l ⊆+ dialog_items p ppl → NoDup l.
Proof.
  intros Hu (l2 & Hperm & Hsub)%submseteq_sublist_r.
  rewrite Hperm. apply (sublist_NoDup _ _ Hu).
  etrans; [exact Hsub|]. apply fmap_sublist, sublist_filter.
Qed.

Lemma three_generations_wf : wf three_generations.
Proof.
  change three_generations
    with (people (run [Add "" "" "" None None; Add "" "" "" (Some [1]) None;
                       Add "" "" "" (Some [2]) None] empty_model)).
  apply (run_wf _ []); [apply wf_nil|].
  simpl. repeat split.
  all: rewrite ?people_exec; simpl.
  all: closed_list_goal.
Qed.

(** X17. In a store that is well formed, pressing OK in the edit dialog
    of a record keeps it well formed, whichever items are selected and in
    whichever order the widgets report them: the two lists offer the id of
    every other record once, and never the record's own.  The record keeps
    its place, its id and its position, and holds the three texts and the
    two selections. *)
Theorem accept_keeps_store_well_formed (i : nat) (p : Person)
    (name dob desc : string) (parents children : list Z) (m : FamilyModel) :
  wf (people m) → people m !! i = Some p →
  parents ⊆+ dialog_items p (people m) →
  children ⊆+ dialog_items p (people m) →
  ∃ r m' p',
    accept i name dob desc parents children m = (r, m') ∧
    wf (people m') ∧
    people m' !! i = Some p' ∧
    ident p' = ident p ∧
    nombre p' = name ∧ fecha_nacimiento p' = dob ∧ descripcion p' = desc ∧
    pos_x p' = pos_x p ∧ pos_y p' = pos_y p ∧
    padres_of p' = parents ∧ hijos_of p' = children.
Proof.
  intros Hwf Hi HP HC.
  pose proof Hwf as (Hu & Hdf & _ & _).
  pose proof (get_unique _ _ _ Hu Hi) as Hget.
  destruct (dialog_items_known _ _ _ HP) as [HkP HsP].
  destruct (dialog_items_known _ _ _ HC) as [HkC HsC].
  set (kw := mkKwargs (Given name) (Given dob) (Given desc)
                      (Given parents) (Given children)).
  assert (wf (people (exec (Update (ident p) kw) m))) as Hwf'.
  { apply exec_wf; [done | |]; simpl.
    - split; intros new [= <-]; done.
    - split; intros new [= <-]; by eapply dialog_items_NoDup. }
  pose proof (people_exec (Update (ident p) kw) m) as Hppl.
  simpl in Hwf', Hppl. rewrite Hget in Hppl.
  destruct (updated_lists (ident p) i p kw (people m) Hu Hdf Hget)
    as (F & HFid & HF & HFp & HFc).
  { intros newP newC [= <-] [= <-]. done. }
  destruct (HFp parents eq_refl) as (HpP & _).
  destruct (HFc children eq_refl) as (HpC & _).
  assert (rel_blind scalars) as Hblind by done.
  pose proof (updated_blind _ i kw (people m) Hblind) as Heq.
  destruct (lookup_fmap_eq _ _ _ i (update_scalars kw p) Heq)
    as (p' & Hi' & Hp'); [by rewrite list_lookup_alter_eq, Hi|].
  rewrite HF, list_lookup_fmap, Hi in Hi'. injection Hi' as <-.
  injection Hp' as Hn Hf Hd Hx Hy.
  unfold accept, mbind, method_bind, read_people. simpl. rewrite Hi.
  fold kw.
  destruct (update_person (ident p) kw m) as [r m'] eqn:Hup. simpl in *.
  exists (match r with Returned _ => Returned tt | Raised e => Raised e end),
    m', (F p).
  split_and!; try done.
  - by destruct r.
  - by rewrite Hppl, HF, list_lookup_fmap, Hi.
Qed.

Lemma accept_keeps_store_well_formed_witness :
  let m := mkModel three_generations None true in
  ∃ r m' p',
    accept 1 "Bea" "1950" "" [3] [1] m = (r, m') ∧
    wf (people m') ∧
    people m' !! 1%nat = Some p' ∧
    ident p' = 2 ∧
    nombre p' = "Bea" ∧ fecha_nacimiento p' = "1950" ∧ descripcion p' = "" ∧
    pos_x p' = None ∧ pos_y p' = None ∧
    padres_of p' = [3] ∧ hijos_of p' = [1].
Proof.
  intros m.
  refine (accept_keeps_store_well_formed 1 (bare 2 [1] [3]) "Bea" "1950" ""
            [3] [1] m three_generations_wf eq_refl _ _).
  - apply (bool_decide_unpack _); vm_compute; exact I.
  - apply (bool_decide_unpack _); vm_compute; exact I.
Defined.

(** * Calls on list objects *)

(** ** Records, keys and references *)


Lemma rel_key (s : side) (p : Person) : rel s p = default [] (key s p).
Proof. by destruct s. Qed.






Lemma key_deref (s : side) (mem : Memory) (d : Dict) :
  key s (deref mem d) = contents mem <$> Mem.ref s d.
Proof. by destruct s. Qed.




Lemma view_lookup (mem : Memory) (i : nat) :
  view mem !! i = deref mem <$> dicts mem !! i.
Proof. apply list_lookup_fmap. Qed.

Lemma view_lookup_Some (mem : Memory) (i : nat) (q : Person) :
  view mem !! i = Some q ↔ ∃ d, dicts mem !! i = Some d ∧ q = deref mem d.
Proof.
  rewrite view_lookup. destruct (dicts mem !! i) as [d|]; simpl.
  - split; [intros [= <-]; eauto | by intros (d' & [= <-] & ->)].
  - split; [done | by intros (d' & [= ] & _)].
Qed.

Lemma contents_change_eq (f : list Z → list Z) (r : loc) (mem : Memory) :
  (r < length (objects mem))%nat →
  contents (Mem.change f r mem) r = f (contents mem r).
Proof.
  intros Hr. unfold contents, Mem.change. simpl.
  rewrite list_lookup_alter_eq.
  destruct (lookup_lt_is_Some_2 _ _ Hr) as [l Hl]. by rewrite Hl.
Qed.

Lemma contents_change_ne (f : list Z → list Z) (r r' : loc) (mem : Memory) :
  r' ≠ r → contents (Mem.change f r mem) r' = contents mem r'.
Proof.
  intros Hr. unfold contents, Mem.change. simpl.
  by rewrite list_lookup_alter_ne.
Qed.

Lemma holds_change (f : list Z → list Z) (r0 : loc) (mem : Memory) i s r :
  holds (Mem.change f r0 mem) i s r ↔ holds mem i s r.
Proof. done. Qed.



(** ** Steps that write under one key *)





(** ** One round of a loop *)



(** ** Loops *)





(** ** New list objects *)


Lemma grown_trans (mem1 mem2 mem3 : Memory) :
  grown mem1 mem2 → grown mem2 mem3 → grown mem1 mem3.
Proof.
  intros [Hd1 [e1 He1]] [Hd2 [e2 He2]]. split; [congruence|].
  exists (e1 ++ e2). by rewrite He2, He1, app_assoc.
Qed.









(** ** self.people.append(person) *)


(** ** add_person *)


(** ** update_person *)








(** ** delete_person *)










(** ** Calls that hand over lists built for them *)






(** ** The loops come to an end *)

Lemma link_contents (s : side) (own : Z) (mem : Memory) (k : Z) (r : loc) :
  contents (Mem.link s own mem k) r = contents mem r ∨
  ((own ∉ contents mem r) ∧
   contents (Mem.link s own mem k) r = contents mem r ++ [own]).
Proof.
  unfold Mem.link.
  destruct (get k (view mem)) as [[i q]|] eqn:Hget; [|by left].
  case_decide as Hown; [by left|].
  apply get_Some in Hget as (Hi & _ & _).
  apply view_lookup_Some in Hi as (d & Hi & ->).
  unfold Mem.setdefault. rewrite Hi. simpl.
  destruct (Mem.ref s d) as [r'|] eqn:Hr.
  - rewrite rel_key, key_deref, Hr in Hown. simpl in Hown.
    destruct (decide (r = r')) as [->|Hne];
      [|left; by apply contents_change_ne].
    destruct (decide (r' < length (objects mem))%nat) as [Hlt|Hge].
    + right. split; [done|]. by apply contents_change_eq.
    + left. unfold contents, Mem.change. simpl.
      rewrite list_lookup_alter_eq.
      by rewrite (lookup_ge_None_2 (objects mem) r') by lia.
  - unfold contents, Mem.change. simpl.
    destruct (decide (r < length (objects mem))%nat) as [Hlt|Hge].
    + left. rewrite list_lookup_alter_ne by lia. by rewrite lookup_app_l.
    + destruct (decide (r = length (objects mem))) as [->|Hne].
      * right. rewrite list_lookup_alter_eq, list_lookup_middle by done.
        rewrite (lookup_ge_None_2 (objects mem)) by lia. simpl.
        split; [apply not_elem_of_nil | done].
      * left. rewrite list_lookup_alter_ne by done.
        rewrite !lookup_ge_None_2; [done | lia |].
        rewrite length_app. simpl. lia.
Qed.

(** Whatever is shared, a loop whose body is [link] ends within
    [rounds]. *)
Lemma for_each_link_total (s : side) (own : Z) (r : loc) (fuel place : nat)
    (mem : Memory) :
  (length (contents mem r) +
     (if decide (own ∈ contents mem r) then 0 else 1) ≤ place + fuel)%nat →
  is_Some (Mem.for_each fuel r place (Mem.link s own) mem).
Proof.
  revert place mem. induction fuel as [|fuel IH]; intros place mem Hlen;
    simpl; destruct (contents mem r !! place) as [x|] eqn:Hx; try done.
  - apply lookup_lt_Some in Hx. lia.
  - apply IH. apply lookup_lt_Some in Hx.
    destruct (link_contents s own mem x r) as [->|[Hnot ->]].
    + lia.
    + rewrite length_app. simpl.
      rewrite decide_True by set_solver.
      rewrite decide_False in Hlen by done. lia.
Qed.

Lemma rounds_suffice (s : side) (own : Z) (r : loc) (mem : Memory) :
  is_Some (Mem.for_each (Mem.rounds mem r) r 0 (Mem.link s own) mem).
Proof.
  apply for_each_link_total. unfold Mem.rounds. case_decide; lia.
Qed.

(** Every call comes to its end, whichever list objects it is handed. *)
Lemma exec_total (c : Mem.call) (mem : Memory) : is_Some (Mem.exec c mem).
Proof.
  destruct c as [name dob description parents children
                |id_ nombre fecha descripcion padres hijos|id_]; simpl.
  - destruct (Mem.pass_opt parents mem) as [ps mem1].
    destruct (Mem.pass_opt children mem1) as [cs mem2].
    unfold Mem.add_person.
    destruct (Mem.or_empty ps mem2) as [rp mem3].
    destruct (Mem.or_empty cs mem3) as [rc mem4].
    destruct (rounds_suffice Hijos (max_id (view mem2) + 1) rp
                (mkMemory (dicts mem4 ++ [mkDict (max_id (view mem2) + 1)
                   name dob (Some rp) (Some rc) description None None])
                   (objects mem4))) as [mem5 ->].
    cbn [mbind option_bind].
    destruct (rounds_suffice Padres (max_id (view mem2) + 1) rc mem5)
      as [mem6 ->].
    done.
  - destruct (Mem.pass_kw padres mem) as [pa mem1].
    destruct (Mem.pass_kw hijos mem1) as [hi mem2].
    unfold Mem.update_person.
    destruct (get id_ (view mem2)) as [[i q]|]; [|done].
    unfold Mem.updated. simpl.
    set (mem3 := mkMemory _ (objects mem2)).
    assert (∀ s new mem0, is_Some (Mem.replace_rel s i new mem0)) as Hrep.
    { intros s new mem0. unfold Mem.replace_rel.
      destruct (view mem0 !! i) as [p|]; [|done]. apply rounds_suffice. }
    destruct pa as [| |rp]; simpl.
    + destruct hi as [| |rc]; simpl; [done | done |].
      by destruct (Hrep Hijos rc mem3) as [mem4 ->].
    + destruct hi as [| |rc]; simpl; [done | done |].
      by destruct (Hrep Hijos rc mem3) as [mem4 ->].
    + destruct (Hrep Padres rp mem3) as [mem4 ->]. cbn [mbind option_bind].
      destruct hi as [| |rc]; simpl; [done | done |].
      by destruct (Hrep Hijos rc mem4) as [mem5 ->].
  - done.
Qed.

(** ** Examples *)






